(** * MatthewgAI: the Mille Bornes player of [mille/matthewgai.py]

    A shallow embedding of the decision engine and the properties checked
    against it.

    Conventions of the embedding.
    - Python integers are [Z].  Python floats are idealised as exact
      rationals ([Q]): [/] (true division, the module imports
      [division] from [__future__]) is [pydiv], which raises
      [ZeroDivisionError] on a zero divisor; [min], [max], [math.ceil] and
      the comparisons are the ones of [Q].  Rounding is not modelled.
    - A Python exception is a [Raise] in the [result] monad, a loop that
      never ends is [Diverges].
    - [mille.cards], [mille.deck], [mille.game] and [mille.move] are
      collaborators outside the file; what the engine uses of them is the
      record [Mille], a parameter of every definition.
    - [self.debug] only prints; it is left out.  [@cacheComputationForTurn]
      memoises a method on the [repr] of its arguments for one decision; the
      cache is emptied on entry of [makeMove] and nothing mutates the tracker
      or the snapshot while a decision runs, so the methods are modelled by
      their bodies (see [cacheComputationForTurn] below for the decorator on
      its own).
    - [random.shuffle] is the only source of non-determinism; the
      permutation drawn for playout [k] is the parameter [shuffle k]. *)

From Stdlib Require Import ZArith QArith Qround Qminmax Lia Lqa.
From Stdlib Require Import List Permutation Sorted.
From stdpp Require Import base option list gmap fin_maps.

#[local] Open Scope Z_scope.

(** ** Exceptions and the error monad *)

Inductive PyError : Type :=
| KeyError
| ZeroDivisionError
| ValueError
| IndexError
| NameError
| UnknownCardType.

(** The outcome of a call: a value, an exception, or no return at all. *)
Inductive result (A : Type) : Type :=
| Ok (a : A)
| Raise (e : PyError)
| Diverges.

Arguments Ok {A} a.
Arguments Raise {A} e.
Arguments Diverges {A}.

#[export] Instance result_ret : MRet result := λ A a, Ok a.

#[export] Instance result_bind : MBind result := λ A B f r,
  match r with
  | Ok a => f a
  | Raise e => Raise e
  | Diverges => Diverges
  end.

Definition is_Ok {A} (r : result A) : Prop := ∃ a, r = Ok a.

(** A [for] loop threading an accumulator, stopping at the first exception. *)
Fixpoint foldM {A B} (f : B → A → result B) (b : B) (l : list A) : result B :=
  match l with
  | [] => Ok b
  | a :: l' => b' ← f b a; foldM f b' l'
  end.

(** A list comprehension whose element expression may raise. *)
Fixpoint forM {A B} (f : A → result B) (l : list A) : result (list B) :=
  match l with
  | [] => Ok []
  | a :: l' => b ← f a; bs ← forM f l'; Ok (b :: bs)
  end.

(** ** Numbers *)

Definition Z2Q (z : Z) : Q := inject_Z z.

(** [a / b] on floats (or on integers under true division). *)
Definition pydiv (a b : Q) : result Q :=
  if Qeq_bool b 0 then Raise ZeroDivisionError else Ok (a / b)%Q.

(** [math.ceil(x)], as a float. *)
Definition ceil (x : Q) : Q := Z2Q (Qceiling x).

(** [sum(l)] on integers and on floats. *)
Definition sumZ (l : list Z) : Z := foldr Z.add 0 l.
Definition sumQ (l : list Q) : Q := foldr Qplus 0%Q l.

(** [len(l)]. *)
Definition len {A} (l : list A) : Z := Z.of_nat (length l).

(** [d[k]] on a dict. *)
Definition getitem `{Countable K} {V} (d : gmap K V) (k : K) : result V :=
  match d !! k with
  | Some v => Ok v
  | None => Raise KeyError
  end.

(** [sum(d.values())]. *)
Definition sum_values (d : gmap Z Z) : Z := map_fold (λ _ v acc, v + acc) 0 d.

(** [l[i]] on a list: negative indices count from the end. *)
Definition list_getitem {A} (l : list A) (i : Z) : result A :=
  let j := if 0 <=? i then i else len l + i in
  if j <? 0 then Raise IndexError
  else match l !! Z.to_nat j with
       | Some a => Ok a
       | None => Raise IndexError
       end.

(** [l.index(x)]: position of the first element equal to [x]. *)
Fixpoint list_index {A} `{EqDecision A} (x : A) (l : list A) : result Z :=
  match l with
  | [] => Raise ValueError
  | y :: l' => if decide (y = x) then Ok 0 else i ← list_index x l'; Ok (i + 1)
  end.

(** [len([c for c in l if c == x])]. *)
Definition count_eq {A} `{EqDecision A} (x : A) (l : list A) : Z :=
  len (filter (λ c, c = x) l).

(** ** Constants *)

Module Constants.
Definition REMEDY_DISCARD_BOOST : Q := 3 # 2.
Definition DISCARD_MOVE_VALUE_PENALTY : Q := 1 # 1000.
Definition SAFETY_HORDE_FACTOR : Q := 3 # 5.
Definition ATTACK_QUALITY_MOD_STOP : Q := 1 # 4.
Definition ATTACK_QUALITY_MOD_LIMIT : Q := 1 # 4.
Definition DUPE_PENALTY_FACTOR : Z := 3.
Definition toTuple : Q * Q * Q * Q * Q * Z :=
  (REMEDY_DISCARD_BOOST, DISCARD_MOVE_VALUE_PENALTY, SAFETY_HORDE_FACTOR,
   ATTACK_QUALITY_MOD_STOP, ATTACK_QUALITY_MOD_LIMIT, DUPE_PENALTY_FACTOR).
End Constants.

(** ** The collaborators: card catalogue, deck and game constants *)

Inductive CardType : Type := MILEAGE | REMEDY | SAFETY | ATTACK | OTHER.

#[export] Instance CardType_eq_dec : EqDecision CardType.
Proof. solve_decision. Defined.

(** What the engine reads from [Cards], [Deck] and [Game].  Cards are
    integers; [OTHER] stands for any card type that is not one of the four. *)
Record Mille : Type := {
  cardToType : Z → CardType;
  cardToMileage : Z → Z;
  attackToSafety : Z → Z;
  attackToRemedy : Z → Z;
  remedyToAttack : Z → Z;
  remedyToSafety : Z → Z;
  REMEDY_GO : Z;
  REMEDY_END_OF_LIMIT : Z;
  ATTACK_STOP : Z;
  ATTACK_SPEED_LIMIT : Z;
  ATTACKS : list Z;
  REMEDIES : list Z;
  MILEAGE_CARDS : list Z;
  composition : gmap Z Z;
  pointsToWin : Z
}.

(** ** Data model *)

Inductive MoveType : Type := PLAY | DISCARD.

#[export] Instance MoveType_eq_dec : EqDecision MoveType.
Proof. solve_decision. Defined.

Module Move.
Record t : Type := {
  type : MoveType;
  card : Z;
  target : option Z
}.
End Move.

#[export] Instance Move_eq_dec : EqDecision Move.t.
Proof. solve_decision. Defined.

Module Team.
Record t : Type := {
  number : Z;
  playerNumbers : list Z;
  mileage : Z;
  moving : bool;
  needRemedy : option Z;
  speedLimit : bool;
  twoHundredsPlayed : Z;
  safeties : list Z;
  totalScore : Z
}.
End Team.

(** Truth value of [team.needRemedy]: [None] and the card [0] are false. *)
Definition truthy (o : option Z) : bool :=
  match o with
  | Some c => negb (c =? 0)
  | None => false
  end.

Module GameState.
Record t : Type := {
  us : Team.t;
  opponents : list Team.t;
  validMoves : list Move.t;
  target : Z;
  cardsLeft : Z;
  debug : bool;
  teamNumberToTeam : option Z → result Team.t
}.
End GameState.

(** The long-lived state of the engine. *)
Record MatthewgAI : Type := {
  cardsUnseen : gmap Z Z;
  numCardsUnseen : Z;
  interestingRemedyDiscardsByPlayer : gmap Z (gmap Z Z)
}.

(** ** Card-count tracker *)

(** The dict a [defaultdict] entry of [interestingRemedyDiscardsByPlayer]
    starts from: [dict((remedy, 0) for remedy in Cards.REMEDIES)]. *)
Definition noRemedyDiscards (K : Mille) : gmap Z Z :=
  foldl (λ d remedy, <[remedy := 0]> d) ∅ (REMEDIES K).

Definition resetCardCount (K : Mille) : MatthewgAI :=
  {| cardsUnseen := composition K;
     numCardsUnseen := sum_values (composition K);
     interestingRemedyDiscardsByPlayer := ∅ |}.

(** [MatthewgAI()]: the constructor resets the card count. *)
Definition init (K : Mille) : MatthewgAI := resetCardCount K.

(** A mutator returns its outcome and the state it leaves behind, which an
    exception does not roll back. *)
Definition cardSeen (card : Z) (ai : MatthewgAI) : result unit * MatthewgAI :=
  match getitem (cardsUnseen ai) card with
  | Raise e => (Raise e, ai)
  | Diverges => (Diverges, ai)
  | Ok n =>
      (Ok (),
       {| cardsUnseen := <[card := n - 1]> (cardsUnseen ai);
          numCardsUnseen := numCardsUnseen ai - 1;
          interestingRemedyDiscardsByPlayer :=
            interestingRemedyDiscardsByPlayer ai |})
  end.

Definition set_discards (ai : MatthewgAI) (m : gmap Z (gmap Z Z)) : MatthewgAI :=
  {| cardsUnseen := cardsUnseen ai;
     numCardsUnseen := numCardsUnseen ai;
     interestingRemedyDiscardsByPlayer := m |}.

Definition playerPlayed (K : Mille) (player : Z) (move : Move.t)
    (ai : MatthewgAI) : result unit * MatthewgAI :=
  let card := Move.card move in
  match cardSeen card ai with
  | (Raise e, ai1) => (Raise e, ai1)
  | (Diverges, ai1) => (Diverges, ai1)
  | (Ok _, ai1) =>
      if bool_decide (cardToType K card = REMEDY) && negb (card =? REMEDY_GO K) then
        (* reading the defaultdict creates the player's entry *)
        let byPlayer := interestingRemedyDiscardsByPlayer ai1 in
        let discards := default (noRemedyDiscards K) (byPlayer !! player) in
        if bool_decide (Move.type move = DISCARD) then
          match getitem discards card with
          | Raise e => (Raise e, set_discards ai1 (<[player := discards]> byPlayer))
          | Diverges => (Diverges, ai1)
          | Ok n =>
              (Ok (), set_discards ai1 (<[player := <[card := n + 1]> discards]> byPlayer))
          end
        else
          (Ok (), set_discards ai1 (<[player := <[card := 0]> discards]> byPlayer))
      else (Ok (), ai1)
  end.

Definition cardDrawn (card : Z) (ai : MatthewgAI) : result unit * MatthewgAI :=
  cardSeen card ai.

Definition handEnded (K : Mille) (ai : MatthewgAI) : result unit * MatthewgAI :=
  (Ok (), resetCardCount K).

(** The calls the rule engine makes on the tracker between decisions. *)
Inductive Observation : Type :=
| CardDrawn (card : Z)
| PlayerPlayed (player : Z) (move : Move.t)
| HandEnded.

Definition observe (K : Mille) (o : Observation) (ai : MatthewgAI)
    : result unit * MatthewgAI :=
  match o with
  | CardDrawn card => cardDrawn card ai
  | PlayerPlayed player move => playerPlayed K player move ai
  | HandEnded => handEnded K ai
  end.

(** The tracker after a sequence of calls on a fresh engine, whether or not
    some of them raised. *)
Definition observeAll (K : Mille) (os : list Observation) : MatthewgAI :=
  foldl (λ ai o, snd (observe K o ai)) (init K) os.

(** Number of times [card] was reported since the last reset. *)
Definition timesSeen (card : Z) (os : list Observation) : Z :=
  foldl (λ n o,
    match o with
    | HandEnded => 0
    | CardDrawn c => if decide (c = card) then n + 1 else n
    | PlayerPlayed _ move => if decide (Move.card move = card) then n + 1 else n
    end) 0 os.

(** ** Sorting

    [l.sort(reverse=True)] is stable: elements that compare equal keep their
    order.  [gt x y] is the strict order, [x > y]. *)

Fixpoint insert_reverse {A} (gt : A → A → bool) (x : A) (l : list A) : list A :=
  match l with
  | [] => [x]
  | y :: l' => if gt y x then y :: insert_reverse gt x l' else x :: y :: l'
  end.

Definition sort_reverse {A} (gt : A → A → bool) (l : list A) : list A :=
  foldr (insert_reverse gt) [] l.

Definition Qltb (x y : Q) : bool := negb (Qle_bool y x).

(** ** The engine during one decision

    [ai] is [self], [gs] is [self.gameState]. *)

Section Engine.

Context (K : Mille) (shuffle : nat → list Z → list Z).
Context (ai : MatthewgAI) (gs : GameState.t).

(** [[self.gameState.us] + self.gameState.opponents] *)
Definition teams : list Team.t := GameState.us gs :: GameState.opponents gs.

Definition percentOfCardsRemaining (cards : list Z) : result Q :=
  cardCount ← foldM (λ cardCount card,
                 n ← getitem (cardsUnseen ai) card; Ok (cardCount + n)) 0 cards;
  pydiv (Z2Q cardCount) (Z2Q (Z.max (Z.max (numCardsUnseen ai) cardCount) 1)).

(** [self.interestingRemedyDiscardsByPlayer[player][remedy]]; the entry the
    defaultdict creates on a miss holds the same zeros a later read finds. *)
Definition remedyDiscards (player remedy : Z) : result Z :=
  getitem (default (noRemedyDiscards K)
             (interestingRemedyDiscardsByPlayer ai !! player)) remedy.

Definition chanceOpponentHasProtection (team : Team.t) (attack : Z) : result Q :=
  let safety := attackToSafety K attack in
  let remedy := attackToRemedy K attack in
  if bool_decide (safety ∈ Team.safeties team) then Ok 1%Q
  else
    odds ← percentOfCardsRemaining [safety; remedy];
    foldM (λ odds player,
      n ← remedyDiscards player remedy;
      Ok (Nat.iter (Z.to_nat n) (λ odds, odds * Constants.REMEDY_DISCARD_BOOST)%Q odds))
      odds (Team.playerNumbers team).

Definition valueOfPoints (points : Q) (team : Team.t) : result Q :=
  let gamePointsRemaining := Z.max (pointsToWin K - Team.totalScore team) 0 in
  if 0 <? gamePointsRemaining
  then q ← pydiv points (Z2Q gamePointsRemaining); Ok (Qmin 1 q)
  else Ok (1 # 2)%Q.

Definition expectedTurnPoints (team : Team.t) : Q := 75%Q.

(** [max(l)] on a non-empty list [x :: l]. *)
Definition maxZ (x : Z) (l : list Z) : Z := foldl Z.max x l.

Definition maxTripPctDone : Q :=
  (Z2Q (maxZ (Team.mileage (GameState.us gs))
             (Team.mileage <$> GameState.opponents gs)) / 1000)%Q.

Definition playerCount : Z := sumZ ((λ team, len (Team.playerNumbers team)) <$> teams).

Definition deckExhaustionTurnsLeft : result Q :=
  q ← pydiv (Z2Q (GameState.cardsLeft gs)) (Z2Q playerCount); Ok (ceil q).

Definition useMonteCarloSimulation : result bool :=
  if Qltb (3 # 4) maxTripPctDone then Ok true
  else turns ← deckExhaustionTurnsLeft; Ok (Qltb turns 10).

(** *** Monte Carlo playouts *)

(** [dict((team.number, f(team)) for team in teams)] *)
Definition byTeamNumber {V} (f : Team.t → V) : gmap Z V :=
  foldl (λ d team, <[Team.number team := f team]> d) ∅ teams.

(** The deck before shuffling: [qty] copies of every unseen card. *)
Definition unseenDeck : list Z :=
  flat_map (λ '(card, qty), replicate (Z.to_nat qty) card)
           (map_to_list (cardsUnseen ai)).

(** [deck.pop()]: the deque gives up its right end. *)
Definition deque_pop (deck : list Z) : option (list Z * Z) :=
  match reverse deck with
  | [] => None
  | card :: rest => Some (reverse rest, card)
  end.

(** [not deck], for a deck that is a deque or [None]. *)
Definition no_deck (deck : option (list Z)) : bool :=
  match deck with
  | Some (_ :: _) => false
  | _ => true
  end.

(** The per-team variables of a playout while the team is dealt to. *)
Record TeamVars : Type := {
  teamNeedMileage : Z;
  teamNeedRemedy : option Z;
  teamMoving : bool;
  teamTwoHundredsPlayed : Z
}.

(** The effect of one dealt card on the team; [None] is [continue]. *)
Definition dealCard (teamNeedSafety needRemedy_teamNo : option Z) (card : Z)
    (v : TeamVars) : option TeamVars :=
  let cardType := cardToType K card in
  if negb (bool_decide (cardType = MILEAGE)) then
    if card =? REMEDY_GO K then
      Some {| teamNeedMileage := teamNeedMileage v;
              teamNeedRemedy :=
                if bool_decide (teamNeedRemedy v = Some (REMEDY_GO K))
                then None else teamNeedRemedy v;
              teamMoving := true;
              teamTwoHundredsPlayed := teamTwoHundredsPlayed v |}
    else if truthy (teamNeedRemedy v) then
      if bool_decide (cardType = SAFETY) && bool_decide (teamNeedSafety = Some card)
         || bool_decide (cardType = REMEDY) && bool_decide (needRemedy_teamNo = Some card)
      then Some {| teamNeedMileage := teamNeedMileage v;
                   teamNeedRemedy := None;
                   teamMoving := teamMoving v;
                   teamTwoHundredsPlayed := teamTwoHundredsPlayed v |}
      else Some v
    else Some v
  else
    let mileage := cardToMileage K card in
    if (mileage =? 200) && (2 <=? teamTwoHundredsPlayed v) then None
    else if teamNeedMileage v <? mileage then None
    else
      Some {| teamNeedMileage := teamNeedMileage v - mileage;
              teamNeedRemedy := teamNeedRemedy v;
              teamMoving := teamMoving v;
              teamTwoHundredsPlayed :=
                if mileage =? 200 then teamTwoHundredsPlayed v + 1
                else teamTwoHundredsPlayed v |}.

(** [for playerNum in currentTurnTeam.playerNumbers: ...] *)
Fixpoint dealToPlayers (teamNeedSafety needRemedy_teamNo : option Z)
    (players : list Z) (v : TeamVars) (tripCompletedBy : option Z)
    (deck : option (list Z)) : TeamVars * option Z * option (list Z) :=
  match players with
  | [] => (v, tripCompletedBy, deck)
  | playerNum :: players' =>
      if bool_decide (tripCompletedBy = Some playerNum) then (v, tripCompletedBy, None)
      else
        match deck ≫= deque_pop with
        | None => (v, tripCompletedBy, deck)
        | Some (deck', card) =>
            match dealCard teamNeedSafety needRemedy_teamNo card v with
            | None =>
                dealToPlayers teamNeedSafety needRemedy_teamNo players' v
                              tripCompletedBy (Some deck')
            | Some v' =>
                if (teamNeedMileage v' =? 0) && teamMoving v'
                   && negb (truthy (teamNeedRemedy v'))
                then (v', Some playerNum, Some deck')
                else dealToPlayers teamNeedSafety needRemedy_teamNo players' v'
                                   tripCompletedBy (Some deck')
            end
        end
  end.

(** The dicts and variables of one playout. *)
Record Playout : Type := {
  needMileage : gmap Z Z;
  moving : gmap Z bool;
  needRemedy : gmap Z (option Z);
  twoHundredsPlayed : gmap Z Z;
  tripCompletedBy : option Z;
  deck : option (list Z);
  turnsElapsed : Z
}.

(** [for currentTurnTeam in teams: ...] *)
Fixpoint dealToTeams (ts : list Team.t) (p : Playout) : result Playout :=
  match ts with
  | [] => Ok p
  | currentTurnTeam :: ts' =>
      if no_deck (deck p) then Ok p
      else
        let teamNo := Team.number currentTurnTeam in
        teamNeedMileage0 ← getitem (needMileage p) teamNo;
        teamNeedRemedy0 ← getitem (needRemedy p) teamNo;
        teamMoving0 ← getitem (moving p) teamNo;
        teamTwoHundredsPlayed0 ← getitem (twoHundredsPlayed p) teamNo;
        let teamNeedSafety :=
          if truthy teamNeedRemedy0
          then remedyToSafety K <$> teamNeedRemedy0 else None in
        let '(v, completedBy, deck') :=
          dealToPlayers teamNeedSafety teamNeedRemedy0
            (Team.playerNumbers currentTurnTeam)
            {| teamNeedMileage := teamNeedMileage0;
               teamNeedRemedy := teamNeedRemedy0;
               teamMoving := teamMoving0;
               teamTwoHundredsPlayed := teamTwoHundredsPlayed0 |}
            (tripCompletedBy p) (deck p) in
        dealToTeams ts'
          {| needMileage := <[teamNo := teamNeedMileage v]> (needMileage p);
             needRemedy := <[teamNo := teamNeedRemedy v]> (needRemedy p);
             moving := <[teamNo := teamMoving v]> (moving p);
             twoHundredsPlayed :=
               <[teamNo := teamTwoHundredsPlayed v]> (twoHundredsPlayed p);
             tripCompletedBy := completedBy;
             deck := deck';
             turnsElapsed := turnsElapsed p |}
  end.

(** [while deck: ...; turnsElapsed += 1].  A round in which nobody is dealt
    a card (no team has a player) repeats for ever; every other round
    shortens the deck or drops it, so that [fuel] beyond the size of the deck
    is never used up by a loop that ends. *)
Fixpoint whileDeck (fuel : nat) (p : Playout) : result Playout :=
  if no_deck (deck p) then Ok p
  else
    match fuel with
    | O => Diverges
    | S fuel' =>
        p' ← dealToTeams teams p;
        whileDeck fuel'
          {| needMileage := needMileage p';
             moving := moving p';
             needRemedy := needRemedy p';
             twoHundredsPlayed := twoHundredsPlayed p';
             tripCompletedBy := tripCompletedBy p';
             deck := deck p';
             turnsElapsed := turnsElapsed p' + 1 |}
    end.

(** The row a finished playout reports. *)
Definition playoutResult (p : Playout) : result (list Z) :=
  rows ← forM (λ i,
    team ← (if i =? Team.number (GameState.us gs) then Ok (GameState.us gs)
            else GameState.teamNumberToTeam gs (Some i));
    nr ← getitem (needRemedy p) i;
    stuck ← (if truthy nr then Ok true
             else mv ← getitem (moving p) i; Ok (negb mv));
    if stuck : bool then Ok (1000 - Team.mileage team)
    else getitem (needMileage p) i)
    (seqZ 0 (len (GameState.opponents gs) + 1));
  Ok (turnsElapsed p :: rows).

(** One playout, with the [k]-th shuffle. *)
Definition playout (k : nat) : result (list Z) :=
  let deck0 := shuffle k unseenDeck in
  p ← whileDeck (S (length deck0))
        {| needMileage := byTeamNumber Team.mileage;
           moving := byTeamNumber Team.moving;
           needRemedy := byTeamNumber Team.needRemedy;
           twoHundredsPlayed := byTeamNumber Team.twoHundredsPlayed;
           tripCompletedBy := None;
           deck := Some deck0;
           turnsElapsed := 1 |};
  playoutResult p.

Definition monteCarloMileageSimulation : result (list (list Z)) :=
  forM playout (seq 0 100).

(** *** Trip-completion forecast *)

Definition goCoeff (team : Team.t) (teamMovesLeft : Q) : result Q :=
  if Team.moving team then Ok 1%Q
  else
    pct ← percentOfCardsRemaining [REMEDY_GO K];
    Ok (Qmin 1 (pct * teamMovesLeft)).

(** [team.needRemedy and team.needRemedy != Cards.REMEDY_GO] *)
Definition needsOtherRemedy (team : Team.t) : option Z :=
  match Team.needRemedy team with
  | Some remedy =>
      if truthy (Some remedy) && negb (remedy =? REMEDY_GO K) then Some remedy
      else None
  | None => None
  end.

Definition remedyCoeff (team : Team.t) (teamMovesLeft : Q) : result Q :=
  match needsOtherRemedy team with
  | Some remedy =>
      pct ← percentOfCardsRemaining [remedy; remedyToSafety K remedy];
      Ok (Qmin 1 (pct * teamMovesLeft))
  | None => Ok 1%Q
  end.

Definition validMileageCards (needMileage : Z) : list Z :=
  sort_reverse Z.gtb
    (filter (λ card, cardToMileage K card ≤ needMileage) (MILEAGE_CARDS K)).

Definition unseenTotalMileage (cards : list Z) : result Z :=
  products ← forM (λ card,
    n ← getitem (cardsUnseen ai) card; Ok (cardToMileage K card * n)) cards;
  Ok (sumZ products).

(** The card-counting branch of [chanceTeamWillCompleteTrip]. *)
Definition cardCountingEstimate (team : Team.t) : result Q :=
  turnsLeft ← deckExhaustionTurnsLeft;
  let playersOnTeam := len (Team.playerNumbers team) in
  let teamMovesLeft := (turnsLeft * Z2Q playersOnTeam)%Q in
  goCoeff ← goCoeff team teamMovesLeft;
  remedyCoeff ← remedyCoeff team teamMovesLeft;
  if Qeq_bool goCoeff 0 || Qeq_bool remedyCoeff 0 then Ok 0%Q
  else
    let needMileage := 1000 - Team.mileage team in
    let validMileageCards := validMileageCards needMileage in
    validMileagePct ← percentOfCardsRemaining validMileageCards;
    unseenTotalMileage ← unseenTotalMileage validMileageCards;
    if unseenTotalMileage <? needMileage then Ok 0%Q
    else
      ratio ← pydiv (Z2Q unseenTotalMileage) (Z2Q needMileage);
      Ok (Qmin 1 (validMileagePct * ratio * teamMovesLeft
                  * remedyCoeff * goCoeff)).

(** The simulation branch of [chanceTeamWillCompleteTrip]. *)
Definition monteCarloEstimate (team : Team.t) : result Q :=
  playouts ← monteCarloMileageSimulation;
  teamResults ← forM (λ row, list_getitem row (Team.number team + 1)) playouts;
  let completionCount := len (filter (λ r, r = 0) teamResults) in
  pydiv (Z2Q completionCount) (Z2Q (len teamResults)).

Definition chanceTeamWillCompleteTrip (team : Team.t) : result Q :=
  mc ← useMonteCarloSimulation;
  if mc : bool then monteCarloEstimate team else cardCountingEstimate team.

Definition chanceTeamWillWin (team : Team.t) : result Q :=
  priorOddsTargetWillWinGame ← pydiv 1 (Z2Q (len (GameState.opponents gs) + 1));
  let maxScore := maxZ (Team.totalScore (GameState.us gs))
                       (Team.totalScore <$> GameState.opponents gs) in
  gamePercentDone ← pydiv (Z2Q maxScore) (Z2Q (pointsToWin K));
  if maxScore =? 0 then Ok priorOddsTargetWillWinGame
  else
    currentScoreTargetWinChance ← pydiv (Z2Q (Team.totalScore team)) (Z2Q maxScore);
    Ok ((currentScoreTargetWinChance * gamePercentDone
         + priorOddsTargetWillWinGame * (1 - gamePercentDone)) / 2)%Q.

Definition expectedTurnsLeft : result Q :=
  mc ← useMonteCarloSimulation;
  if mc : bool then deckExhaustionTurnsLeft
  else
    playouts ← monteCarloMileageSimulation;
    gameEndTurns ← forM (λ gameOutcome, list_getitem gameOutcome 0) playouts;
    mean ← pydiv (Z2Q (sumZ gameEndTurns)) (Z2Q (len gameEndTurns));
    Ok (ceil mean).

(** *** Card and move values *)

Definition mileageCardValue (card : Z) : result Q :=
  let tripMileageRemaining := 1000 - Team.mileage (GameState.us gs) in
  tripRemainingMileagePercentConsumed ←
    pydiv (Z2Q (cardToMileage K card)) (Z2Q tripMileageRemaining);
  points ← valueOfPoints (Z2Q (400 + 200)) (GameState.us gs);
  Ok (tripRemainingMileagePercentConsumed * points)%Q.

Definition dupeCoefficient (numDuplicates : Z) : result Q :=
  dupeFrac ← pydiv 1 (Z2Q numDuplicates);
  let dupePenaltyFactor := Constants.DUPE_PENALTY_FACTOR in
  Ok (1 - (1 - dupeFrac) / Z2Q dupePenaltyFactor)%Q.

(** [cards] holds a card or [None] at every position. *)
Definition cardValue (card : Z) (cardIdx : Z) (cards : list (option Z)) : result Q :=
  let us := GameState.us gs in
  let numDuplicates := count_eq (Some card) cards in
  dupeCoefficient ← dupeCoefficient numDuplicates;
  match cardToType K card with
  | MILEAGE =>
      let mileage := cardToMileage K card in
      let mileageRemaining := 1000 - Team.mileage us in
      if mileageRemaining <? mileage then Ok (0 * dupeCoefficient)%Q
      else if (mileage =? 200) && (2 <=? Team.twoHundredsPlayed us)
      then Ok (0 * dupeCoefficient)%Q
      else
        reserved ← (if mileage =? 25
                    then idx ← list_index (Some card) cards; Ok (idx =? cardIdx)
                    else Ok false);
        if reserved : bool then Ok (1 * dupeCoefficient)%Q
        else value ← mileageCardValue card; Ok (value * dupeCoefficient)%Q
  | REMEDY =>
      let relevantAttacks :=
        if card =? REMEDY_GO K then ATTACKS K else [remedyToAttack K card] in
      let relevantAttacks :=
        filter (λ c, Some (attackToSafety K c) ∉ (Some <$> Team.safeties us) ++ cards)
               relevantAttacks in
      let turnPoints := expectedTurnPoints us in
      turnPointValue ← valueOfPoints turnPoints us;
      idx ← list_index (Some card) cards;
      attackOnUsOdds ←
        (if (idx =? cardIdx)
            && (negb (Team.moving us) && (card =? REMEDY_GO K)
                || Team.speedLimit us && (card =? REMEDY_END_OF_LIMIT K)
                || truthy (Team.needRemedy us)
                   && bool_decide (Some card = Team.needRemedy us))
         then Ok 1%Q
         else
           pct ← percentOfCardsRemaining relevantAttacks;
           turns ← expectedTurnsLeft;
           let attackOdds := (pct * turns)%Q in
           pydiv attackOdds (Z2Q (len (GameState.opponents gs) + 1)));
      let value := (turnPointValue * attackOnUsOdds)%Q in
      Ok (value * dupeCoefficient)%Q
  | SAFETY => Ok (1 * dupeCoefficient)%Q
  | ATTACK =>
      let safety := attackToSafety K card in
      let remedy := attackToRemedy K card in
      valuesPerTarget ← forM (λ target,
        protection ← chanceOpponentHasProtection target card;
        pct ← percentOfCardsRemaining [safety; remedy];
        points ← valueOfPoints (expectedTurnPoints target) target;
        Ok ((1 - protection) * (1 - pct) * points)%Q) (GameState.opponents gs);
      mean ← pydiv (sumQ valuesPerTarget) (Z2Q (len valuesPerTarget));
      Ok (mean * dupeCoefficient)%Q
  | OTHER => Raise UnknownCardType
  end.

Definition moveValue (move : Move.t) (discardIdx : Z)
    (discardCards : list (option Z)) : result Q :=
  let us := GameState.us gs in
  let card := Move.card move in
  if bool_decide (Move.type move = DISCARD) then
    cardValue ← cardValue card discardIdx discardCards;
    Ok ((1 - cardValue) * Constants.DISCARD_MOVE_VALUE_PENALTY)%Q
  else
    match cardToType K card with
    | MILEAGE =>
        value ← mileageCardValue card;
        let mileage := cardToMileage K card in
        if mileage =? GameState.target gs - Team.mileage us then Ok 1%Q
        else if (mileage =? 25)
                && (len (filter (λ card, card = card) discardCards) <? 2)
        then Ok 0%Q
        else Ok value
    | REMEDY =>
        if (card =? REMEDY_END_OF_LIMIT K) && negb (Team.speedLimit us) then Ok 0%Q
        else Ok 1%Q
    | SAFETY => Ok Constants.SAFETY_HORDE_FACTOR
    | ATTACK =>
        target ← GameState.teamNumberToTeam gs (Move.target move);
        if (if card =? ATTACK_SPEED_LIMIT K then Team.speedLimit target
            else truthy (Team.needRemedy target)
                 && negb (bool_decide (Team.needRemedy target = Some (REMEDY_GO K))))
        then Ok 0%Q
        else
          let attackQualityModifier :=
            if card =? ATTACK_STOP K then Constants.ATTACK_QUALITY_MOD_STOP
            else if card =? ATTACK_SPEED_LIMIT K then Constants.ATTACK_QUALITY_MOD_LIMIT
            else 1%Q in
          protection ← chanceOpponentHasProtection target card;
          win ← chanceTeamWillWin target;
          complete ← chanceTeamWillCompleteTrip target;
          Ok ((1 - protection) * win * complete * attackQualityModifier)%Q
    | OTHER =>
        (* [len(safeties)]: no such name *)
        Raise NameError
    end.

End Engine.

(** ** The decision *)

#[export] Instance MoveType_countable : Countable MoveType :=
  inj_countable'
    (λ t, match t with PLAY => false | DISCARD => true end)
    (λ b : bool, if b then DISCARD else PLAY)
    (λ t, match t with PLAY => eq_refl | DISCARD => eq_refl end).

#[export] Instance Move_countable : Countable Move.t :=
  inj_countable'
    (λ m, (Move.type m, Move.card m, Move.target m))
    (λ '(t, c, g), {| Move.type := t; Move.card := c; Move.target := g |})
    (λ m, match m with Move.Build_t _ _ _ => eq_refl end).

(** [move.card if move.type == Move.DISCARD else None] *)
Definition discardCard (move : Move.t) : option Z :=
  if bool_decide (Move.type move = DISCARD) then Some (Move.card move) else None.

(** [enumerate(l)] *)
Definition enumerate {A} (l : list A) : list (Z * A) := zip (seqZ 0 (len l)) l.

(** The dict [moveValues]; moves are dict keys by value. *)
Definition moveValues (K : Mille) (shuffle : nat → list Z → list Z)
    (ai : MatthewgAI) (gameState : GameState.t) : result (gmap Move.t Q) :=
  let moves := GameState.validMoves gameState in
  let discardCards := discardCard <$> moves in
  foldM (λ (d : gmap Move.t Q) '(i, move),
           value ← moveValue K shuffle ai gameState move i discardCards;
           Ok (<[move := value]> d)) ∅ (enumerate moves).

(** [sort] computes the key of every element before it compares any; the
    first of the sorted moves is returned. *)
Definition makeMove (K : Mille) (shuffle : nat → list Z → list Z)
    (ai : MatthewgAI) (gameState : GameState.t) : result Move.t :=
  let moves := GameState.validMoves gameState in
  moveValues ← moveValues K shuffle ai gameState;
  keyed ← forM (λ move, key ← getitem moveValues move; Ok (key, move)) moves;
  let moves := snd <$> sort_reverse (λ a b, Qltb (fst b) (fst a)) keyed in
  list_getitem moves 0.

(** ** The memoising decorator

    [cache] is [ai.turnCache], keyed by the signature of the call; [body] is
    the outcome of running the decorated method. *)
Definition cacheComputationForTurn `{Countable Sig} {V}
    (cache : gmap Sig V) (sig : Sig) (body : result V) : result V * gmap Sig V :=
  match cache !! sig with
  | Some ret => (Ok ret, cache)
  | None =>
      match body with
      | Ok ret => (Ok ret, <[sig := ret]> cache)
      | r => (r, cache)
      end
  end.

(** ** A catalogue to run the engine on

    The statements hold for every catalogue; this one gives them concrete
    snapshots to be evaluated on. *)
Module Sample.

Definition MILEAGE_25 : Z := 1.
Definition MILEAGE_50 : Z := 2.
Definition MILEAGE_75 : Z := 3.
Definition MILEAGE_100 : Z := 4.
Definition MILEAGE_200 : Z := 5.
Definition REMEDY_GASOLINE : Z := 6.
Definition REMEDY_SPARE_TIRE : Z := 7.
Definition REMEDY_END_OF_LIMIT : Z := 9.
Definition REMEDY_GO : Z := 10.
Definition ATTACK_OUT_OF_GAS : Z := 11.
Definition ATTACK_FLAT_TIRE : Z := 12.
Definition ATTACK_ACCIDENT : Z := 13.
Definition ATTACK_SPEED_LIMIT : Z := 14.
Definition ATTACK_STOP : Z := 15.
Definition SAFETY_EXTRA_TANK : Z := 16.
Definition SAFETY_PUNCTURE_PROOF : Z := 17.
Definition SAFETY_DRIVING_ACE : Z := 18.
Definition SAFETY_RIGHT_OF_WAY : Z := 19.

Definition cardToType (card : Z) : CardType :=
  if (1 <=? card) && (card <=? 5) then MILEAGE
  else if (6 <=? card) && (card <=? 10) then REMEDY
  else if (11 <=? card) && (card <=? 15) then ATTACK
  else if (16 <=? card) && (card <=? 19) then SAFETY
  else OTHER.

Definition cardToMileage (card : Z) : Z :=
  if card =? 1 then 25 else if card =? 2 then 50 else if card =? 3 then 75
  else if card =? 4 then 100 else if card =? 5 then 200 else 0.

(** Attack [11 + k] is cured by remedy [6 + k]; the safety against it is
    [16 + k], right of way covering both the speed limit and the stop. *)
Definition attackToRemedy (attack : Z) : Z := attack - 5.
Definition remedyToAttack (remedy : Z) : Z := remedy + 5.
Definition attackToSafety (attack : Z) : Z := Z.min (attack + 5) 19.
Definition remedyToSafety (remedy : Z) : Z := Z.min (remedy + 10) 19.

Definition composition : gmap Z Z :=
  list_to_map
    [(1, 10); (2, 10); (3, 10); (4, 12); (5, 4);
     (6, 6); (7, 6); (8, 6); (9, 6); (10, 14);
     (11, 3); (12, 3); (13, 3); (14, 4); (15, 5);
     (16, 1); (17, 1); (18, 1); (19, 1)].

(** Modelled from the spec: the card catalogue, the deck composition and the
    points-to-win constant, which [mille.cards], [mille.deck] and
    [mille.game] supply and the sources do not include.  This instance
    follows section 3 of the spec: four card types, mileage cards with a
    distance, every attack with one remedy and one safety, a single copy of
    each safety; the numbers are those of the boxed game. *)
Definition mille : Mille :=
  Build_Mille cardToType cardToMileage
    attackToSafety attackToRemedy remedyToAttack remedyToSafety
    REMEDY_GO REMEDY_END_OF_LIMIT ATTACK_STOP ATTACK_SPEED_LIMIT
    (* ATTACKS *) [11; 12; 13; 14; 15]
    (* REMEDIES *) [6; 7; 8; 9; 10]
    (* MILEAGE_CARDS *) [1; 2; 3; 4; 5]
    composition
    (* pointsToWin *) 5000.

(** The shuffle that leaves the deck as it is. *)
Definition noShuffle (k : nat) (deck : list Z) : list Z := deck.

Definition team (number : Z) (players : list Z) (mileage : Z) : Team.t :=
  {| Team.number := number;
     Team.playerNumbers := players;
     Team.mileage := mileage;
     Team.moving := true;
     Team.needRemedy := None;
     Team.speedLimit := false;
     Team.twoHundredsPlayed := 0;
     Team.safeties := [];
     Team.totalScore := 0 |}.

Definition play (card : Z) : Move.t :=
  {| Move.type := PLAY; Move.card := card; Move.target := None |}.

Definition attack (card target : Z) : Move.t :=
  {| Move.type := PLAY; Move.card := card; Move.target := Some target |}.

Definition discard (card : Z) : Move.t :=
  {| Move.type := DISCARD; Move.card := card; Move.target := None |}.

(** Two teams of one player each; [teamNumberToTeam] looks the number up. *)
Definition game (us them : Team.t) (moves : list Move.t) (cardsLeft : Z)
    : GameState.t :=
  {| GameState.us := us;
     GameState.opponents := [them];
     GameState.validMoves := moves;
     GameState.target := 1000;
     GameState.cardsLeft := cardsLeft;
     GameState.debug := false;
     GameState.teamNumberToTeam := λ n,
       if bool_decide (n = Some (Team.number us)) then Ok us
       else if bool_decide (n = Some (Team.number them)) then Ok them
       else Raise KeyError |}.

End Sample.

(** ** Notions used in the statements *)

(** A card is tracked when the tracker holds a non-negative count for it. *)
Definition tracked (ai : MatthewgAI) (card : Z) : Prop :=
  ∃ n, cardsUnseen ai !! card = Some n ∧ 0 ≤ n.

(** The count the tracker holds for a card. *)
Definition unseen (ai : MatthewgAI) (card : Z) : Z :=
  default 0 (cardsUnseen ai !! card).

(** The sum of the counts of the requested cards. *)
Definition requested (ai : MatthewgAI) (cards : list Z) : Z :=
  sumZ (unseen ai <$> cards).

(** The tracker's total agrees with its per-card counts. *)
Definition consistent (ai : MatthewgAI) : Prop :=
  numCardsUnseen ai = sum_values (cardsUnseen ai).


(** [x] is not below [y] in the order of the keys. *)
Definition not_below {A} (key : A → Q) (x y : A) : Prop := (key y <= key x)%Q.

(** Every entry of the turn cache is what the method returns now. *)
Definition coherent `{Countable Sig} {V} (method : Sig → result V)
    (cache : gmap Sig V) : Prop :=
  ∀ sig ret, cache !! sig = Some ret → method sig = Ok ret.

(** The tracker has a count, of any sign, for the card. *)
Definition knows (ai : MatthewgAI) (card : Z) : Prop :=
  is_Some (cardsUnseen ai !! card).

(** Size of the deck of a playout; a dropped deck counts as empty. *)
Definition deck_size (deck : option (list Z)) : nat :=
  match deck with
  | Some l => length l
  | None => O
  end.

(** The dicts of a playout have an entry for team number [i]. *)
Definition has_team (p : Playout) (i : Z) : Prop :=
  is_Some (needMileage p !! i) ∧ is_Some (needRemedy p !! i)
  ∧ is_Some (moving p !! i) ∧ is_Some (twoHundredsPlayed p !! i).

(** The snapshot is fit for playouts: somebody plays, the teams are numbered
    from 0 and [teamNumberToTeam] finds every team but ours. *)
Definition playable (gs : GameState.t) : Prop :=
  (∃ team, team ∈ teams gs ∧ Team.playerNumbers team ≠ [])
  ∧ ∀ i, 0 ≤ i < len (teams gs) →
      (∃ team, team ∈ teams gs ∧ Team.number team = i)
      ∧ (i = Team.number (GameState.us gs)
         ∨ is_Ok (GameState.teamNumberToTeam gs (Some i))).

(** What the engine takes for granted of a snapshot and of its tracker: the
    hand is still being played, against somebody, by teams numbered from 0;
    the tracker counts the cards the forecasts ask about and its discard
    records cover every remedy. *)
Record well_formed (K : Mille) (ai : MatthewgAI) (gs : GameState.t) : Prop := {
  wf_playable : playable gs;
  wf_numbers : ∀ team, team ∈ teams gs → 0 ≤ Team.number team < len (teams gs);
  wf_opponents : GameState.opponents gs ≠ [];
  wf_racing : Team.mileage (GameState.us gs) ≠ 1000;
  wf_pointsToWin : pointsToWin K ≠ 0;
  wf_go : knows ai (REMEDY_GO K);
  wf_mileage : Forall (knows ai) (MILEAGE_CARDS K);
  wf_attacks : Forall (knows ai) (ATTACKS K);
  wf_needRemedy : ∀ team remedy,
    team ∈ teams gs → Team.needRemedy team = Some remedy →
    knows ai remedy ∧ knows ai (remedyToSafety K remedy);
  wf_discards : ∀ player discards remedy,
    interestingRemedyDiscardsByPlayer ai !! player = Some discards →
    remedy ∈ REMEDIES K → is_Some (discards !! remedy)
}.

(** A move of a known kind: its card is a mileage, remedy, safety or attack
    card; the tracker counts the cards the catalogue relates to it, and an
    attack that is played aims at a team of the snapshot. *)
Definition known_move (K : Mille) (ai : MatthewgAI) (gs : GameState.t)
    (move : Move.t) : Prop :=
  let card := Move.card move in
  match cardToType K card with
  | MILEAGE | SAFETY => True
  | REMEDY => knows ai (remedyToAttack K card)
  | ATTACK =>
      knows ai (attackToSafety K card) ∧ knows ai (attackToRemedy K card)
      ∧ attackToRemedy K card ∈ REMEDIES K
      ∧ (Move.type move = PLAY →
         ∃ team, GameState.teamNumberToTeam gs (Move.target move) = Ok team
                 ∧ team ∈ teams gs)
  | OTHER => False
  end.

(** * Properties *)

(** ** Arithmetic of the numeric model *)

Lemma Z2Q_neq0 (z : Z) : z ≠ 0 → ¬ (Z2Q z == 0)%Q.
Proof.
  intros Hz H. apply Hz. unfold Z2Q in H.
  change 0%Q with (inject_Z 0) in H. by apply inject_Z_injective.
Qed.

Lemma Z2Q_nonneg (z : Z) : 0 ≤ z → (0 <= Z2Q z)%Q.
Proof. intros. unfold Z2Q. change 0%Q with (inject_Z 0). by rewrite <- Zle_Qle. Qed.

Lemma Z2Q_pos (z : Z) : 0 < z → (0 < Z2Q z)%Q.
Proof. intros. unfold Z2Q. change 0%Q with (inject_Z 0). by rewrite <- Zlt_Qlt. Qed.

Lemma Z2Q_le (x y : Z) : x ≤ y → (Z2Q x <= Z2Q y)%Q.
Proof. intros. unfold Z2Q. by rewrite <- Zle_Qle. Qed.

Lemma pydiv_Ok (a b : Q) : ¬ (b == 0)%Q → pydiv a b = Ok (a / b)%Q.
Proof.
  intros Hb. unfold pydiv. destruct (Qeq_bool b 0) eqn:E; [|done].
  apply Qeq_bool_iff in E. contradiction.
Qed.

Lemma pydiv_Z_Ok (a : Q) (z : Z) : z ≠ 0 → pydiv a (Z2Q z) = Ok (a / Z2Q z)%Q.
Proof. intros. by apply pydiv_Ok, Z2Q_neq0. Qed.

Lemma Qdiv_nonneg (a b : Q) : (0 <= a → 0 < b → 0 <= a / b)%Q.
Proof. intros. apply Qle_shift_div_l; [done|lra]. Qed.

Lemma ratio_range (s d : Z) : 0 ≤ s ≤ d → 0 < d → (0 <= Z2Q s / Z2Q d <= 1)%Q.
Proof.
  intros [Hs Hsd] Hd.
  pose proof (Z2Q_pos d Hd). pose proof (Z2Q_nonneg s Hs).
  pose proof (Z2Q_le s d Hsd).
  split; [by apply Qdiv_nonneg|].
  apply Qle_shift_div_r; [done|lra].
Qed.

Lemma Qmin_1_range (x : Q) : (0 <= x → 0 <= Qmin 1 x <= 1)%Q.
Proof.
  intros. split; [|apply Q.le_min_l].
  apply Q.min_glb; [lra|done].
Qed.

Lemma Qltb_lt (x y : Q) : Qltb x y = true ↔ (x < y)%Q.
Proof.
  unfold Qltb. rewrite negb_true_iff. split.
  - intros E. apply Qnot_le_lt. intros Hle.
    apply Qle_bool_iff in Hle. congruence.
  - intros Hlt. destruct (Qle_bool y x) eqn:E; [|done].
    apply Qle_bool_iff in E. lra.
Qed.

Lemma Qltb_ge (x y : Q) : Qltb x y = false ↔ (y <= x)%Q.
Proof.
  unfold Qltb. rewrite negb_false_iff. apply Qle_bool_iff.
Qed.

(** ** The turn cache

    The cache is empty when a decision starts, and a decorated method run on
    a coherent cache returns what its body returns and leaves the cache
    coherent: this is why the methods are modelled by their bodies. *)

Lemma coherent_empty `{Countable Sig} {V} (method : Sig → result V) :
  coherent method ∅.
Proof. intros sig ret E. by rewrite lookup_empty in E. Qed.

Lemma cacheComputationForTurn_transparent `{Countable Sig} {V}
    (method : Sig → result V) (cache : gmap Sig V) (sig : Sig) :
  coherent method cache →
  (cacheComputationForTurn cache sig (method sig)).1 = method sig
  ∧ coherent method (cacheComputationForTurn cache sig (method sig)).2.
Proof.
  intros Hcache. unfold cacheComputationForTurn.
  destruct (cache !! sig) as [ret|] eqn:Ecache.
  - split; [|done]. symmetry. by apply Hcache.
  - destruct (method sig) as [ret| |] eqn:Eret; simpl; (split; [done|]); [|done..].
    intros sig' ret' E. destruct (decide (sig = sig')) as [<-|Hne].
    + rewrite lookup_insert_eq in E. congruence.
    + rewrite lookup_insert_ne in E by done. by apply Hcache.
Qed.

(** ** Value of points *)

Lemma valueOfPoints_Ok (K : Mille) (points : Q) (team : Team.t) :
  valueOfPoints K points team =
    Ok (if decide (pointsToWin K ≤ Team.totalScore team) then (1 # 2)%Q
        else Qmin 1 (points / Z2Q (pointsToWin K - Team.totalScore team))).
Proof.
  unfold valueOfPoints. case_decide as Hle.
  - rewrite Z.max_r by lia. done.
  - rewrite Z.max_l by lia.
    destruct (0 <? _) eqn:Hpos; [|lia].
    rewrite pydiv_Z_Ok by lia. done.
Qed.

(** C10: when the team's total score has reached the points to win,
    [valueOfPoints] is 0.5 whatever the points; otherwise it is
    [min(1.0, points / pointsRemaining)], which lies in [0,1] for
    non-negative points. *)
Theorem valueOfPoints_spec (K : Mille) (points : Q) (team : Team.t) :
  valueOfPoints K points team =
    Ok (if decide (pointsToWin K ≤ Team.totalScore team) then (1 # 2)%Q
        else Qmin 1 (points / Z2Q (pointsToWin K - Team.totalScore team)))
  ∧ ((0 <= points)%Q →
     ∃ v, valueOfPoints K points team = Ok v ∧ (0 <= v <= 1)%Q).
Proof.
  pose proof (valueOfPoints_Ok K points team) as E.
  split; [done|]. intros Hpts. rewrite E. eexists; split; [done|].
  case_decide as Hle; [lra|].
  apply Qmin_1_range, Qdiv_nonneg; [done|]. apply Z2Q_pos. lia.
Qed.

Lemma valueOfPoints_witness :
  (0 <= 600)%Q ∧
  ∃ v, valueOfPoints Sample.mille 600 (Sample.team 0 [0] 100) = Ok v
       ∧ (0 <= v <= 1)%Q.
Proof.
  split; [lra|].
  apply (valueOfPoints_spec Sample.mille 600 (Sample.team 0 [0] 100)). lra.
Defined.

(** ** Duplicate coefficient *)

Lemma dupeCoefficient_Ok (d : Z) :
  1 ≤ d → dupeCoefficient d = Ok (1 - (1 - 1 / Z2Q d) / Z2Q 3)%Q.
Proof. intros. unfold dupeCoefficient. rewrite pydiv_Z_Ok by lia. done. Qed.

(** C5, as the code has it: from one copy upward the duplicate coefficient
    never increases with the number of copies (it strictly decreases), it
    is 1.0 for a single copy and stays above [1 - 1/DUPE_PENALTY_FACTOR]. *)
Theorem dupeCoefficient_antitone (d1 d2 : Z) :
  1 ≤ d1 → d1 ≤ d2 →
  ∃ v1 v2,
    dupeCoefficient d1 = Ok v1 ∧ dupeCoefficient d2 = Ok v2
    ∧ (v2 <= v1)%Q ∧ (d1 < d2 → (v2 < v1)%Q)
    ∧ (d1 = 1 → (v1 == 1)%Q) ∧ (2 # 3 < v2)%Q.
Proof.
  intros H1 H12. do 2 eexists.
  split; [by apply dupeCoefficient_Ok|]. split; [apply dupeCoefficient_Ok; lia|].
  pose proof (Z2Q_pos d1 ltac:(lia)) as P1.
  pose proof (Z2Q_pos d2 ltac:(lia)) as P2.
  assert (0 < 1 / Z2Q d2)%Q as I2 by (apply Qlt_shift_div_l; [done|lra]).
  assert (d1 < d2 → (1 / Z2Q d2 < 1 / Z2Q d1)%Q) as Hlt.
  { intros Hlt. apply Qlt_shift_div_l; [done|].
    assert (Z2Q d1 < Z2Q d2)%Q by (unfold Z2Q; by rewrite <- Zlt_Qlt).
    assert (1 / Z2Q d2 * Z2Q d1 == Z2Q d1 / Z2Q d2)%Q as -> by (field; lra).
    apply Qlt_shift_div_r; [done|lra]. }
  assert (1 / Z2Q d2 <= 1 / Z2Q d1)%Q as Hle.
  { destruct (decide (d1 = d2)) as [->|]; [lra|]. apply Qlt_le_weak, Hlt. lia. }
  change (Z2Q 3) with 3%Q.
  assert (∀ y, y / 3 == y * (1 # 3))%Q as D3 by (intros; field).
  repeat split.
  - rewrite !D3. lra.
  - intros Hd. specialize (Hlt Hd). rewrite !D3. lra.
  - intros ->. change (Z2Q 1) with 1%Q. field.
  - rewrite !D3. lra.
Qed.

Lemma dupeCoefficient_antitone_witness :
  1 ≤ 2 ∧ 2 ≤ 3 ∧
  ∃ v1 v2, dupeCoefficient 2 = Ok v1 ∧ dupeCoefficient 3 = Ok v2 ∧ (v2 <= v1)%Q.
Proof.
  split; [lia|]. split; [lia|].
  destruct (dupeCoefficient_antitone 2 3) as (v1 & v2 & E1 & E2 & Hle & _);
    [lia|lia|].
  exists v1, v2. by repeat split.
Defined.

(** C5 as stated fails: with two copies the coefficient is smaller than with
    one. *)
Lemma dupeCoefficient_not_monotone :
  ∃ v1 v2, dupeCoefficient 1 = Ok v1 ∧ dupeCoefficient 2 = Ok v2
           ∧ ¬ (v1 <= v2)%Q.
Proof.
  exists (3 # 3)%Q, (5 # 6)%Q. split; [reflexivity|]. split; [reflexivity|].
  intros H. vm_compute in H. by apply H.
Qed.

(** ** Share of the unseen cards *)

Lemma requested_cons ai card cards :
  requested ai (card :: cards) = unseen ai card + requested ai cards.
Proof. reflexivity. Qed.

Lemma unseen_tracked ai card n : cardsUnseen ai !! card = Some n → unseen ai card = n.
Proof. intros E. unfold unseen. by rewrite E. Qed.

Lemma requested_nonneg ai cards : Forall (tracked ai) cards → 0 ≤ requested ai cards.
Proof.
  induction 1 as [|card cards (n & E & Hn) _ IH]; [done|].
  rewrite requested_cons, (unseen_tracked _ _ _ E). lia.
Qed.

Lemma cardCount_loop ai cards acc :
  Forall (tracked ai) cards →
  foldM (λ cardCount card,
           n ← getitem (cardsUnseen ai) card; Ok (cardCount + n)) acc cards
  = Ok (acc + requested ai cards).
Proof.
  intros H. revert acc.
  induction H as [|card cards (n & E & Hn) _ IH]; intros acc; simpl.
  - f_equal. change (requested ai []) with 0. lia.
  - unfold getitem. rewrite E. simpl. rewrite IH. f_equal.
    rewrite requested_cons, (unseen_tracked _ _ _ E). lia.
Qed.

Lemma percentOfCardsRemaining_Ok ai cards :
  Forall (tracked ai) cards →
  percentOfCardsRemaining ai cards =
    Ok (Z2Q (requested ai cards)
        / Z2Q (Z.max (Z.max (numCardsUnseen ai) (requested ai cards)) 1))%Q.
Proof.
  intros H. unfold percentOfCardsRemaining.
  rewrite cardCount_loop by done. simpl.
  rewrite Z.add_0_l. apply pydiv_Z_Ok. lia.
Qed.


(** C3: for requested cards with non-negative counts,
    [percentOfCardsRemaining] is the sum of their counts over
    [max(numCardsUnseen, sum, 1)]; it lies in [0,1] and is 0 when every
    requested count is 0. *)
Theorem percentOfCardsRemaining_spec (ai : MatthewgAI) (cards : list Z) :
  Forall (tracked ai) cards →
  ∃ pct,
    percentOfCardsRemaining ai cards = Ok pct
    ∧ pct = (Z2Q (requested ai cards)
             / Z2Q (Z.max (Z.max (numCardsUnseen ai) (requested ai cards)) 1))%Q
    ∧ (0 <= pct <= 1)%Q
    ∧ (Forall (λ card, cardsUnseen ai !! card = Some 0) cards → (pct == 0)%Q).
Proof.
  intros H. eexists. split; [by apply percentOfCardsRemaining_Ok|].
  split; [done|].
  pose proof (requested_nonneg ai cards H).
  split; [apply ratio_range; lia|].
  intros Hzero.
  assert (requested ai cards = 0) as ->.
  { clear H H0. induction Hzero as [|card cards E _ IH]; [done|].
    rewrite requested_cons, (unseen_tracked _ _ _ E). lia. }
  change (Z2Q 0) with 0%Q. unfold Qdiv. apply Qmult_0_l.
Qed.

Lemma percentOfCardsRemaining_witness :
  Forall (tracked (init Sample.mille)) [19; 15] ∧
  ∃ pct, percentOfCardsRemaining (init Sample.mille) [19; 15] = Ok pct
         ∧ (0 <= pct <= 1)%Q.
Proof.
  assert (Forall (tracked (init Sample.mille)) [19; 15]) as H.
  { repeat constructor.
    - exists 1. by vm_compute.
    - exists 5. by vm_compute. }
  split; [done|].
  destruct (percentOfCardsRemaining_spec (init Sample.mille) [19; 15] H)
    as (pct & E & _ & R & _).
  by exists pct.
Defined.

(** ** Protection odds *)

(** C4: once the team has played the safety that matches the attack,
    [chanceOpponentHasProtection] is exactly 1.0, whatever the tracker's
    counts and the recorded remedy discards. *)
Theorem chanceOpponentHasProtection_safety_played
    (K : Mille) (ai : MatthewgAI) (team : Team.t) (attack : Z) :
  attackToSafety K attack ∈ Team.safeties team →
  chanceOpponentHasProtection K ai team attack = Ok 1%Q.
Proof.
  intros H. unfold chanceOpponentHasProtection.
  by rewrite bool_decide_eq_true_2.
Qed.

(** A team that has played right of way, a tracker with remedy discards on
    record and no card left to see. *)
Lemma chanceOpponentHasProtection_witness :
  let team :=
    {| Team.number := 1; Team.playerNumbers := [1; 3]; Team.mileage := 100;
       Team.moving := true; Team.needRemedy := None; Team.speedLimit := false;
       Team.twoHundredsPlayed := 0; Team.safeties := [Sample.SAFETY_RIGHT_OF_WAY];
       Team.totalScore := 0 |} in
  let ai :=
    {| cardsUnseen := ∅; numCardsUnseen := 0;
       interestingRemedyDiscardsByPlayer := {[ 1 := {[ Sample.REMEDY_GO := 4 ]} ]} |} in
  attackToSafety Sample.mille Sample.ATTACK_STOP ∈ Team.safeties team
  ∧ chanceOpponentHasProtection Sample.mille ai team Sample.ATTACK_STOP = Ok 1%Q.
Proof.
  intros team ai.
  assert (attackToSafety Sample.mille Sample.ATTACK_STOP ∈ Team.safeties team) as H
    by (vm_compute; constructor).
  split; [done|].
  exact (chanceOpponentHasProtection_safety_played Sample.mille ai team _ H).
Defined.

(** ** Choice of the forecast *)

Lemma maxZ_ge_first x l : x ≤ maxZ x l.
Proof.
  unfold maxZ. revert x. induction l as [|z l IH]; intros x; simpl; [done|].
  etrans; [|apply IH]. lia.
Qed.

Lemma maxZ_ge x l y : y ∈ x :: l → y ≤ maxZ x l.
Proof.
  intros [->|H]%elem_of_cons; [apply maxZ_ge_first|].
  revert x. induction H as [y l|y z l _ IH]; intros x.
  - etrans; [|apply (maxZ_ge_first (Z.max x y) l)]. lia.
  - apply (IH (Z.max x z)).
Qed.

Lemma deckExhaustionTurnsLeft_Ok gs :
  playerCount gs ≠ 0 →
  deckExhaustionTurnsLeft gs
  = Ok (ceil (Z2Q (GameState.cardsLeft gs) / Z2Q (playerCount gs))).
Proof.
  intros H. unfold deckExhaustionTurnsLeft. by rewrite pydiv_Z_Ok.
Qed.

(** C9, as the code has it: with at least one player in the game,
    [useMonteCarloSimulation] is true exactly when the largest share of the
    trip done by a team is strictly above 75% or the turns until the draw
    pile runs out, [ceil(cardsLeft / playerCount)], are fewer than 10. *)
Theorem useMonteCarloSimulation_spec (gs : GameState.t) :
  playerCount gs ≠ 0 →
  ∃ b turns,
    deckExhaustionTurnsLeft gs = Ok turns
    ∧ turns = ceil (Z2Q (GameState.cardsLeft gs) / Z2Q (playerCount gs))
    ∧ useMonteCarloSimulation gs = Ok b
    ∧ (b = true ↔ (3 # 4 < maxTripPctDone gs)%Q ∨ (turns < 10)%Q).
Proof.
  intros H. unfold useMonteCarloSimulation.
  rewrite deckExhaustionTurnsLeft_Ok by done.
  destruct (Qltb (3 # 4) (maxTripPctDone gs)) eqn:E.
  - do 2 eexists. repeat split; try done.
    intros _. left. by apply Qltb_lt.
  - simpl. do 2 eexists. repeat split; try done.
    + intros Hb. right. by apply Qltb_lt.
    + intros [Hpct|Hturns]; [|by apply Qltb_lt].
      apply Qltb_ge in E. lra.
Qed.

Lemma useMonteCarloSimulation_witness :
  let gs := Sample.game (Sample.team 0 [0] 775) (Sample.team 1 [1] 0) [] 80 in
  playerCount gs ≠ 0 ∧ useMonteCarloSimulation gs = Ok true.
Proof.
  intros gs. assert (playerCount gs ≠ 0) as H by (by vm_compute).
  split; [done|].
  destruct (useMonteCarloSimulation_spec gs H) as (b & turns & _ & _ & E & Hb).
  rewrite E. f_equal. apply Hb. left. by vm_compute.
Defined.

(** C9 as stated fails at exactly 75%: the leading team is at 750 of 1000
    and forty turns remain, yet the simulation is not chosen. *)
Lemma useMonteCarloSimulation_at_75_percent :
  let gs := Sample.game (Sample.team 0 [0] 750) (Sample.team 1 [1] 0) [] 80 in
  (3 # 4 <= maxTripPctDone gs)%Q
  ∧ useMonteCarloSimulation gs = Ok false.
Proof. split; [by vm_compute|reflexivity]. Qed.

(** ** Card-count tracker *)

Lemma sum_values_insert (d : gmap Z Z) (k n v : Z) :
  d !! k = Some n → sum_values (<[k := v]> d) = sum_values d - n + v.
Proof.
  intros E. unfold sum_values.
  rewrite (map_fold_delete_L _ _ k n d); [|intros; lia|done].
  rewrite <- (insert_delete_eq d k v).
  rewrite map_fold_insert_L; [lia|intros; lia|apply lookup_delete_eq].
Qed.

Lemma cardSeen_consistent card ai :
  consistent ai → consistent (snd (cardSeen card ai)).
Proof.
  unfold consistent, cardSeen, getitem. intros H.
  destruct (cardsUnseen ai !! card) as [n|] eqn:E; simpl; [|done].
  rewrite (sum_values_insert _ _ n) by done. lia.
Qed.

Lemma playerPlayed_counts K player move ai :
  cardsUnseen (snd (playerPlayed K player move ai))
    = cardsUnseen (snd (cardSeen (Move.card move) ai))
  ∧ numCardsUnseen (snd (playerPlayed K player move ai))
    = numCardsUnseen (snd (cardSeen (Move.card move) ai)).
Proof.
  unfold playerPlayed.
  destruct (cardSeen (Move.card move) ai) as [[[]|e|] ai1]; simpl; try done.
  repeat case_match; done.
Qed.

Lemma observe_consistent K o ai : consistent ai → consistent (snd (observe K o ai)).
Proof.
  intros H. destruct o as [card|player move|]; simpl.
  - by apply cardSeen_consistent.
  - unfold consistent.
    destruct (playerPlayed_counts K player move ai) as [-> ->].
    by apply cardSeen_consistent.
  - done.
Qed.

Lemma observeAll_snoc K os o :
  observeAll K (os ++ [o]) = snd (observe K o (observeAll K os)).
Proof. unfold observeAll. by rewrite foldl_snoc. Qed.

Lemma cardSeen_lookup c ai card :
  cardsUnseen (snd (cardSeen c ai)) !! card
  = (λ n, if decide (c = card) then n - 1 else n) <$> (cardsUnseen ai !! card).
Proof.
  unfold cardSeen, getitem.
  destruct (cardsUnseen ai !! c) as [n|] eqn:E; simpl.
  - case_decide as Hc.
    + subst. by rewrite lookup_insert_eq, E.
    + rewrite lookup_insert_ne by done. by destruct (cardsUnseen ai !! card).
  - case_decide as Hc.
    + subst. by rewrite E.
    + by destruct (cardsUnseen ai !! card).
Qed.

Lemma observeAll_lookup K os card :
  cardsUnseen (observeAll K os) !! card
  = (λ n, n - timesSeen card os) <$> (composition K !! card).
Proof.
  induction os as [|o os IH] using rev_ind.
  - change (timesSeen card []) with 0. simpl.
    destruct (composition K !! card); simpl; f_equal; lia.
  - rewrite observeAll_snoc. unfold timesSeen. rewrite foldl_snoc.
    fold (timesSeen card os).
    destruct o as [c|player move|]; simpl.
    + unfold cardDrawn. rewrite cardSeen_lookup, IH.
      destruct (composition K !! card); simpl; [|done].
      case_decide; f_equal; lia.
    + destruct (playerPlayed_counts K player move (observeAll K os)) as [-> _].
      rewrite cardSeen_lookup, IH.
      destruct (composition K !! card); simpl; [|done].
      case_decide; f_equal; lia.
    + destruct (composition K !! card); simpl; f_equal; lia.
Qed.

(** C2, as the code has it: after any sequence of observations and resets
    on a fresh engine the total [numCardsUnseen] is the sum of the per-card
    counts; the count of a card of the deck is its number of copies less
    the times it was reported since the last reset, so that it is
    non-negative exactly as long as the card was not reported more often
    than the deck holds it. *)
Theorem tracker_counts (K : Mille) (os : list Observation) :
  let ai := observeAll K os in
  numCardsUnseen ai = sum_values (cardsUnseen ai)
  ∧ (∀ card, cardsUnseen ai !! card
             = (λ n, n - timesSeen card os) <$> (composition K !! card))
  ∧ (∀ card n, composition K !! card = Some n →
               (tracked ai card ↔ timesSeen card os ≤ n)).
Proof.
  intros ai. split; [|split].
  - subst ai. induction os as [|o os IH] using rev_ind; [done|].
    rewrite observeAll_snoc. by apply observe_consistent.
  - intros card. apply observeAll_lookup.
  - intros card n E. unfold tracked. subst ai.
    rewrite observeAll_lookup, E. simpl. split.
    + intros (m & [= <-] & Hm). lia.
    + intros Hle. eexists. split; [done|lia].
Qed.

Lemma tracker_counts_witness :
  let os := [CardDrawn 19; PlayerPlayed 1 (Sample.discard 6); CardDrawn 6] in
  composition Sample.mille !! 6 = Some 6
  ∧ timesSeen 6 os ≤ 6
  ∧ tracked (observeAll Sample.mille os) 6.
Proof.
  intros os. split; [reflexivity|]. split; [by vm_compute|].
  destruct (tracker_counts Sample.mille os) as (_ & _ & H).
  apply (H 6 6); [reflexivity|by vm_compute].
Defined.

(** C2 as stated fails: the only right of way is reported twice; the
    second report is accepted and leaves the count at -1. *)
Lemma tracker_count_negative :
  fst (cardDrawn 19 (observeAll Sample.mille [CardDrawn 19])) = Ok ()
  ∧ cardsUnseen (observeAll Sample.mille [CardDrawn 19; CardDrawn 19]) !! 19
    = Some (-1).
Proof. split; by vm_compute. Qed.

(** ** Value of a held card *)

Lemma count_eq_app {A} `{EqDecision A} (x : A) l1 l2 :
  count_eq x (l1 ++ l2) = count_eq x l1 + count_eq x l2.
Proof. unfold count_eq, len. rewrite filter_app, length_app. lia. Qed.

Lemma count_eq_cons {A} `{EqDecision A} (x : A) l :
  count_eq x (x :: l) = 1 + count_eq x l.
Proof. unfold count_eq, len. rewrite filter_cons_True by done. simpl length. lia. Qed.

Lemma count_eq_absent {A} `{EqDecision A} (x : A) l : x ∉ l → count_eq x l = 0.
Proof.
  intros H. unfold count_eq, len.
  induction l as [|y l IH]; [done|].
  apply not_elem_of_cons in H as [Hxy Hl].
  rewrite filter_cons_False by done. by apply IH.
Qed.

Lemma list_index_first {A} `{EqDecision A} (x : A) l1 l2 :
  x ∉ l1 → list_index x (l1 ++ x :: l2) = Ok (len l1).
Proof.
  intros H. induction l1 as [|y l1 IH]; simpl.
  - by rewrite decide_True.
  - apply not_elem_of_cons in H as [Hxy Hl].
    rewrite decide_False by done. rewrite IH by done. simpl.
    f_equal. unfold len. simpl length. lia.
Qed.

Lemma mileageCardValue_Ok K gs card :
  Team.mileage (GameState.us gs) ≠ 1000 →
  ∃ points,
    valueOfPoints K (Z2Q (400 + 200)) (GameState.us gs) = Ok points
    ∧ mileageCardValue K gs card
      = Ok (Z2Q (cardToMileage K card)
            / Z2Q (1000 - Team.mileage (GameState.us gs)) * points)%Q.
Proof.
  intros H. unfold mileageCardValue. rewrite pydiv_Z_Ok by lia. simpl.
  rewrite valueOfPoints_Ok. eauto.
Qed.

(** C7: when the hand holds the same 25 at exactly two positions, the card
    is neither dead weight nor capped, [cardValue] gives the reserved value
    [1.0 * dupeCoefficient] at the first position, the one [cards.index]
    finds, and the generic mileage value times [dupeCoefficient] at the
    second. *)
Theorem cardValue_two_25s (K : Mille) (shuffle : nat → list Z → list Z)
    (ai : MatthewgAI) (gs : GameState.t)
    (card : Z) (before between after : list (option Z)) :
  cardToType K card = MILEAGE →
  cardToMileage K card = 25 →
  Team.mileage (GameState.us gs) ≤ 975 →
  Some card ∉ before → Some card ∉ between → Some card ∉ after →
  let cards := before ++ Some card :: between ++ Some card :: after in
  let first := len before in
  let second := len before + 1 + len between in
  ∃ dc generic,
    dupeCoefficient 2 = Ok dc
    ∧ mileageCardValue K gs card = Ok generic
    ∧ cardValue K shuffle ai gs card first cards = Ok (1 * dc)%Q
    ∧ cardValue K shuffle ai gs card second cards = Ok (generic * dc)%Q.
Proof.
  intros Htype H25 Hleft Hb Hm Ha cards first second.
  destruct (mileageCardValue_Ok K gs card) as (points & _ & Egen); [lia|].
  assert (count_eq (Some card) cards = 2) as Hcount.
  { subst cards. rewrite count_eq_app, count_eq_cons, count_eq_app, count_eq_cons.
    rewrite !count_eq_absent by done. lia. }
  assert (list_index (Some card) cards = Ok first) as Hidx
    by (by apply list_index_first).
  do 2 eexists. split; [by apply dupeCoefficient_Ok|]. split; [exact Egen|].
  unfold cardValue. rewrite Hcount, dupeCoefficient_Ok by lia. simpl.
  rewrite Htype, H25.
  destruct (1000 - Team.mileage (GameState.us gs) <? 25) eqn:E1; [lia|].
  simpl. rewrite Hidx. simpl.
  split.
  - by rewrite Z.eqb_refl.
  - destruct (first =? second) eqn:E2;
      [apply Z.eqb_eq in E2; subst first second; unfold len in E2; lia|].
    rewrite Egen. simpl. by rewrite H25.
Qed.

(** The team needs 25 to finish and holds two 25s, at positions 0 and 2 of
    the discard candidates. *)
Lemma cardValue_two_25s_witness :
  let gs := Sample.game (Sample.team 0 [0] 975) (Sample.team 1 [1] 500) [] 40 in
  let ai := init Sample.mille in
  let cards := [Some 1; None; Some 1; Some 4] in
  (cardToType Sample.mille 1 = MILEAGE ∧ cardToMileage Sample.mille 1 = 25
   ∧ Team.mileage (GameState.us gs) ≤ 975)
  ∧ ∃ dc generic,
      dupeCoefficient 2 = Ok dc
      ∧ mileageCardValue Sample.mille gs 1 = Ok generic
      ∧ cardValue Sample.mille Sample.noShuffle ai gs 1 0 cards = Ok (1 * dc)%Q
      ∧ cardValue Sample.mille Sample.noShuffle ai gs 1 2 cards
        = Ok (generic * dc)%Q.
Proof.
  intros gs ai cards. split; [repeat split; by vm_compute|].
  apply (cardValue_two_25s Sample.mille Sample.noShuffle ai gs 1
           [] [None] [Some 4]).
  - reflexivity.
  - reflexivity.
  - by vm_compute.
  - by intros ?%elem_of_nil.
  - by intros [=]%list_elem_of_singleton.
  - by intros [=]%list_elem_of_singleton.
Defined.

(** ** Sorting *)

Lemma insert_reverse_Permutation {A} (gt : A → A → bool) x l :
  insert_reverse gt x l ≡ₚ x :: l.
Proof.
  induction l as [|y l IH]; simpl; [done|].
  destruct (gt y x); [|done]. rewrite IH. apply Permutation_swap.
Qed.

Lemma sort_reverse_Permutation {A} (gt : A → A → bool) l : sort_reverse gt l ≡ₚ l.
Proof.
  induction l as [|x l IH]; simpl; [done|].
  rewrite insert_reverse_Permutation. by rewrite IH.
Qed.

Lemma insert_reverse_sorted {A} (key : A → Q) x l :
  StronglySorted (not_below key) l →
  StronglySorted (not_below key) (insert_reverse (λ a b, Qltb (key b) (key a)) x l).
Proof.
  induction 1 as [|y l Hl IH Hy]; simpl; [by repeat constructor|].
  destruct (Qltb (key x) (key y)) eqn:E.
  - apply Qltb_lt in E. constructor; [done|].
    rewrite insert_reverse_Permutation. constructor; [|done].
    unfold not_below. lra.
  - apply Qltb_ge in E. constructor; [by constructor|].
    constructor; [done|].
    eapply Forall_impl; [exact Hy|]. unfold not_below. intros z Hz. lra.
Qed.

(** Sorting by key in reverse leaves the keys in descending order. *)
Lemma sort_reverse_sorted {A} (key : A → Q) l :
  StronglySorted (not_below key) (sort_reverse (λ a b, Qltb (key b) (key a)) l).
Proof.
  induction l as [|x l IH]; simpl; [constructor|by apply insert_reverse_sorted].
Qed.

(** ** Trip completion by card counting *)





Lemma needsOtherRemedy_Some K team remedy :
  needsOtherRemedy K team = Some remedy → Team.needRemedy team = Some remedy.
Proof.
  unfold needsOtherRemedy. destruct (Team.needRemedy team) as [r|]; [|done].
  by case_match.
Qed.


(** What choosing the card count says about the snapshot: no team is beyond
    750 and at least 10 turns remain. *)
Lemma analytical_path gs :
  useMonteCarloSimulation gs = Ok false →
  (∀ team, team ∈ teams gs → Team.mileage team ≤ 750)
  ∧ ∃ turns, deckExhaustionTurnsLeft gs = Ok turns ∧ (10 <= turns)%Q.
Proof.
  unfold useMonteCarloSimulation. intros H.
  destruct (Qltb (3 # 4) (maxTripPctDone gs)) eqn:Epct; [done|].
  destruct (deckExhaustionTurnsLeft gs) as [turns| |]; simpl in H; [|done..].
  injection H as Eturns. apply Qltb_ge in Epct, Eturns. split; [|eauto].
  intros team Hteam. unfold maxTripPctDone in Epct.
  assert (Team.mileage team ≤ maxZ (Team.mileage (GameState.us gs))
                                   (Team.mileage <$> GameState.opponents gs)) as Hmax.
  { apply maxZ_ge. unfold teams in Hteam.
    apply elem_of_cons in Hteam as [->|Hteam]; [left|right].
    by apply list_elem_of_fmap_2. }
  set (m := maxZ _ _) in *.
  assert (Z2Q m / 1000 == Z2Q m * (1 # 1000))%Q as E by field.
  rewrite E in Epct.
  assert (Z2Q m <= Z2Q 750)%Q as Hm by (change (Z2Q 750) with 750%Q; lra).
  unfold Z2Q in Hm. rewrite <- Zle_Qle in Hm. lia.
Qed.



(** ** Value of playing a mileage card *)

Lemma filter_self {A} `{EqDecision A} (l : list A) : filter (λ c, c = c) l = l.
Proof.
  induction l as [|x l IH]; [done|].
  rewrite filter_cons_True by done. by rewrite IH.
Qed.

(** What [moveValue] does for a mileage play: the comprehension
    [[card for card in discardCards if card == card]] keeps every entry, so
    that the 25 is held back only when there are fewer than two valid
    moves. *)
Lemma moveValue_play_mileage (K : Mille) (shuffle : nat → list Z → list Z)
    (ai : MatthewgAI) (gs : GameState.t) (move : Move.t) (idx : Z)
    (discardCards : list (option Z)) :
  Move.type move = PLAY →
  cardToType K (Move.card move) = MILEAGE →
  Team.mileage (GameState.us gs) ≠ 1000 →
  ∃ generic,
    mileageCardValue K gs (Move.card move) = Ok generic
    ∧ moveValue K shuffle ai gs move idx discardCards
      = Ok (let mileage := cardToMileage K (Move.card move) in
            if mileage =? GameState.target gs - Team.mileage (GameState.us gs)
            then 1%Q
            else if (mileage =? 25) && (len discardCards <? 2) then 0%Q
            else generic).
Proof.
  intros Hplay Htype Hleft.
  destruct (mileageCardValue_Ok K gs (Move.card move) Hleft) as (points & _ & E).
  eexists. split; [exact E|].
  unfold moveValue. rewrite Hplay, Htype. simpl. rewrite E. simpl.
  rewrite filter_self. by repeat case_match.
Qed.

(** C6 fails on the code: we are at 100 of 1000 with a hand of seven cards,
    a single 25 among them (one 25 among the discard candidates), and
    [moveValue] gives the play of the 25 the generic mileage value,
    25/900 * 0.12, where the claim says 0.0. *)
Theorem moveValue_plays_last_25 :
  let hand := [1; 2; 4; 5; 6; 15; 13] in
  let gs := Sample.game (Sample.team 0 [0] 100) (Sample.team 1 [1] 75)
              ([Sample.play 1; Sample.play 2; Sample.play 4; Sample.play 5;
                Sample.attack 15 1; Sample.attack 13 1]
               ++ (Sample.discard <$> hand)) 60 in
  let discardCards := discardCard <$> GameState.validMoves gs in
  cardToMileage Sample.mille 1 = 25
  ∧ count_eq (Some 1) discardCards = 1
  ∧ GameState.target gs - Team.mileage (GameState.us gs) ≠ 25
  ∧ ∃ value,
      moveValue Sample.mille Sample.noShuffle (init Sample.mille) gs
                (Sample.play 1) 0 discardCards = Ok value
      ∧ mileageCardValue Sample.mille gs 1 = Ok value
      ∧ (value == 1 # 300)%Q.
Proof.
  intros hand gs discardCards.
  split; [reflexivity|]. split; [reflexivity|]. split; [by vm_compute|].
  eexists. split; [reflexivity|]. split; [reflexivity|]. reflexivity.
Qed.

(** ** The decision *)

Lemma enumerate_lookup {A} (l : list A) (i : Z) (x : A) :
  (i, x) ∈ enumerate l → ∃ n : nat, i = Z.of_nat n ∧ l !! n = Some x.
Proof.
  unfold enumerate. intros H. apply list_elem_of_lookup in H as [n H].
  apply lookup_zip_with_Some in H as (i' & x' & [= <- <-] & Hi & Hx).
  apply lookup_seqZ in Hi as [-> _]. exists n. split; [lia|done].
Qed.

Lemma enumerate_snd {A} (l : list A) : (enumerate l).*2 = l.
Proof. unfold enumerate. apply snd_zip. rewrite length_seqZ. unfold len. lia. Qed.

Section Dict.

Context `{Countable Key} {V : Type}.

(** Building a dict from computed values binds every key of the list. *)
Lemma dict_of_values (f : Z → Key → result V) (l : list (Z * Key)) (d0 : gmap Key V) :
  (∀ i k, (i, k) ∈ l → is_Ok (f i k)) →
  ∃ d, foldM (λ (d : gmap Key V) '(i, k), v ← f i k; Ok (<[k := v]> d)) d0 l = Ok d
       ∧ ∀ k, (is_Some (d0 !! k) ∨ k ∈ l.*2) → is_Some (d !! k).
Proof.
  revert d0. induction l as [|[i k] l IH]; intros d0 Hf; simpl.
  - exists d0. split; [done|]. intros k [?|Hk]; [done|]. by apply elem_of_nil in Hk.
  - destruct (Hf i k) as [v Ev]; [left|]. rewrite Ev. simpl.
    destruct (IH (<[k := v]> d0)) as (d & Ed & Hd).
    { intros i' k' Hin. apply Hf. by right. }
    exists d. split; [done|]. intros k' Hk'. apply Hd.
    destruct (decide (k = k')) as [->|Hne].
    + left. rewrite lookup_insert_eq. eauto.
    + rewrite lookup_insert_ne by done.
      destruct Hk' as [?|Hk']; [by left|].
      apply elem_of_cons in Hk' as [?|?]; [congruence|by right].
Qed.

(** Pairing every element with its key leaves the elements as they were. *)
Lemma keyed_by_dict (d : gmap Key V) (l : list Key) :
  (∀ k, k ∈ l → is_Some (d !! k)) →
  ∃ keyed, forM (λ k, key ← getitem d k; Ok (key, k)) l = Ok keyed
           ∧ keyed.*2 = l.
Proof.
  induction l as [|k l IH]; intros Hd.
  - by exists [].
  - destruct (Hd k) as [v Ev]; [left|].
    destruct IH as (keyed & Ekeyed & Ek). { intros k' ?. apply Hd. by right. }
    assert (getitem d k = Ok v) as Eg by (unfold getitem; by rewrite Ev).
    exists ((v, k) :: keyed). cbn [forM]. rewrite Eg.
    cbn [mbind result_bind]. rewrite Ekeyed.
    split; [done|]. cbn [fmap list_fmap snd]. by rewrite Ek.
Qed.

End Dict.

Lemma list_getitem_first {A} (x : A) (l : list A) : list_getitem (x :: l) 0 = Ok x.
Proof. done. Qed.

(** When the list of valid moves is not empty and the value of each of them
    is computed, [makeMove] returns one of them. *)
Lemma makeMove_returns_valid_move (K : Mille) (shuffle : nat → list Z → list Z)
    (ai : MatthewgAI) (gs : GameState.t) :
  GameState.validMoves gs ≠ [] →
  (∀ (i : nat) move,
     GameState.validMoves gs !! i = Some move →
     is_Ok (moveValue K shuffle ai gs move (Z.of_nat i)
                      (discardCard <$> GameState.validMoves gs))) →
  ∃ move, makeMove K shuffle ai gs = Ok move ∧ move ∈ GameState.validMoves gs.
Proof.
  intros Hne Hvalues. unfold makeMove, moveValues.
  set (moves := GameState.validMoves gs) in *.
  set (discardCards := discardCard <$> moves) in *.
  destruct (dict_of_values
              (λ i move, moveValue K shuffle ai gs move i discardCards)
              (enumerate moves) ∅) as (values & -> & Hkeys).
  { intros i move (n & -> & Hn)%enumerate_lookup. by apply Hvalues. }
  simpl.
  destruct (keyed_by_dict values moves) as (keyed & -> & Ekeyed).
  { intros move Hmove. apply Hkeys. right. by rewrite enumerate_snd. }
  simpl.
  set (sorted := sort_reverse _ keyed).
  assert (sorted.*2 ≡ₚ moves) as Hperm.
  { rewrite <- Ekeyed. apply fmap_Permutation, sort_reverse_Permutation. }
  destruct (sorted.*2) as [|move rest] eqn:E.
  - apply Permutation_nil_l in Hperm. by symmetry in Hperm.
  - exists move. split; [apply list_getitem_first|].
    rewrite <- Hperm. left.
Qed.

Lemma forM_inv {A B} (f : A → result B) (l : list A) ys :
  forM f l = Ok ys → Forall2 (λ x y, f x = Ok y) l ys.
Proof.
  revert ys. induction l as [|x l IH]; intros ys; simpl.
  - intros [= <-]. constructor.
  - destruct (f x) as [y| |] eqn:Ey; simpl; [|done..].
    destruct (forM f l) as [ys'| |]; simpl; [|done..].
    intros [= <-]. constructor; [done|]. by apply IH.
Qed.

(** The move [makeMove] returns has the greatest value in [moveValues]. *)
Lemma makeMove_best K shuffle ai gs move :
  makeMove K shuffle ai gs = Ok move →
  ∃ values best,
    moveValues K shuffle ai gs = Ok values
    ∧ values !! move = Some best
    ∧ ∀ m v, m ∈ GameState.validMoves gs → values !! m = Some v → (v <= best)%Q.
Proof.
  unfold makeMove.
  destruct (moveValues K shuffle ai gs) as [values| |]; simpl; [|done..].
  destruct (forM _ (GameState.validMoves gs)) as [keyed| |] eqn:Ekeyed;
    simpl; [|done..].
  apply forM_inv in Ekeyed.
  assert (∀ m v, (v, m) ∈ keyed → values !! m = Some v) as Hin.
  { intros m v [i Hi]%list_elem_of_lookup.
    destruct (Forall2_lookup_r _ _ _ _ _ Ekeyed Hi) as (m' & _ & E).
    unfold getitem in E.
    destruct (values !! m') as [v'|] eqn:E'; [|done]. by injection E as <- <-. }
  assert (∀ m v, m ∈ GameState.validMoves gs → values !! m = Some v →
            (v, m) ∈ keyed) as Hkeyed.
  { intros m v [i Hi]%list_elem_of_lookup Ev.
    destruct (Forall2_lookup_l _ _ _ _ _ Ekeyed Hi) as (km & Hkm & E).
    unfold getitem in E. rewrite Ev in E. injection E as <-.
    by apply list_elem_of_lookup_2 in Hkm. }
  pose proof (sort_reverse_sorted fst keyed) as Hsorted.
  pose proof (sort_reverse_Permutation (λ a b, Qltb (fst b) (fst a)) keyed) as Hperm.
  destruct (sort_reverse _ keyed) as [|[best move'] rest]; [done|].
  intros [= <-]. exists values, best.
  split; [done|]. split.
  - apply Hin. rewrite <- Hperm. left.
  - intros m v Hm Ev. specialize (Hkeyed m v Hm Ev).
    rewrite <- Hperm in Hkeyed. apply StronglySorted_inv in Hsorted as [_ Hrest].
    apply elem_of_cons in Hkeyed as [[= -> ->]|Hk]; [lra|].
    rewrite Forall_forall in Hrest. apply (Hrest _ Hk).
Qed.

(** Without a valid move there is nothing to return. *)
Lemma makeMove_no_moves K shuffle ai gs :
  GameState.validMoves gs = [] → makeMove K shuffle ai gs = Raise IndexError.
Proof. intros E. unfold makeMove, moveValues. by rewrite E. Qed.

(** The play of a card of no known type has no value. *)
Lemma moveValue_unknown_kind K shuffle ai gs move idx discardCards :
  Move.type move = PLAY → cardToType K (Move.card move) = OTHER →
  moveValue K shuffle ai gs move idx discardCards = Raise NameError.
Proof. intros Hplay Htype. unfold moveValue. by rewrite Hplay, Htype. Qed.

(** ** The playouts end *)

Lemma forM_Ok {A B} (f : A → result B) (P : A → B → Prop) (l : list A) :
  (∀ x, x ∈ l → ∃ y, f x = Ok y ∧ P x y) →
  ∃ ys, forM f l = Ok ys ∧ Forall2 P l ys.
Proof.
  induction l as [|x l IH]; intros H.
  - exists []. by split.
  - destruct (H x) as (y & Ey & Hy); [left|].
    destruct IH as (ys & Eys & Hys). { intros x' ?. apply H. by right. }
    exists (y :: ys). cbn [forM]. rewrite Ey. cbn [mbind result_bind].
    rewrite Eys. split; [done|]. by constructor.
Qed.

Lemma no_deck_size deck : no_deck deck = true ↔ deck_size deck = O.
Proof. destruct deck as [[|c l]|]; simpl; split; (done || lia). Qed.

Lemma deque_pop_length l l' c : deque_pop l = Some (l', c) → length l = S (length l').
Proof.
  unfold deque_pop. destruct (reverse l) as [|c' rest] eqn:E; [done|].
  intros [= <- <-]. rewrite length_reverse.
  rewrite <- (length_reverse l), E. done.
Qed.

Lemma dealToPlayers_deck K safety remedy0 players v completedBy deck :
  (deck_size (dealToPlayers K safety remedy0 players v completedBy deck).2
   ≤ deck_size deck)%nat
  ∧ (players ≠ [] → deck_size deck ≠ O →
     (deck_size (dealToPlayers K safety remedy0 players v completedBy deck).2
      < deck_size deck)%nat).
Proof.
  revert v completedBy deck.
  induction players as [|playerNum players IH]; intros v completedBy deck; simpl.
  - split; [lia|done].
  - case_bool_decide; [simpl; split; lia|].
    destruct (deck ≫= deque_pop) as [[deck' card]|] eqn:Epop.
    + destruct deck as [l|]; [|done]. simpl in Epop.
      apply deque_pop_length in Epop.
      destruct (dealCard _ _ _ _ _) as [v'|].
      * case_match.
        -- simpl. split; lia.
        -- specialize (IH v' completedBy (Some deck')). simpl in *. lia.
      * specialize (IH v completedBy (Some deck')). simpl in *. lia.
    + simpl. split; [lia|]. intros _ Hsize.
      destruct deck as [l|]; [|done]. simpl in *.
      unfold deque_pop in Epop.
      destruct (reverse l) eqn:E; [|done].
      apply (f_equal length) in E. rewrite length_reverse in E. simpl in E. lia.
Qed.

Lemma dealToTeams_deck K ts p p' :
  dealToTeams K ts p = Ok p' →
  (deck_size (deck p') ≤ deck_size (deck p))%nat
  ∧ ((∃ team, team ∈ ts ∧ Team.playerNumbers team ≠ []) → deck_size (deck p) ≠ O →
     (deck_size (deck p') < deck_size (deck p))%nat).
Proof.
  revert p. induction ts as [|team ts IH]; intros p; simpl.
  - intros [= <-]. split; [lia|]. intros (team & []%elem_of_nil & _).
  - destruct (no_deck (deck p)) eqn:Enone.
    { intros [= <-]. apply no_deck_size in Enone. split; [lia|]. intros _ ?. done. }
    destruct (getitem (needMileage p) _) as [nm| |]; simpl; [|done..].
    destruct (getitem (needRemedy p) _) as [nr| |]; simpl; [|done..].
    destruct (getitem (moving p) _) as [mv| |]; simpl; [|done..].
    destruct (getitem (twoHundredsPlayed p) _) as [th| |]; simpl; [|done..].
    pose proof (dealToPlayers_deck K
      (if truthy nr then remedyToSafety K <$> nr else None) nr
      (Team.playerNumbers team)
      {| teamNeedMileage := nm; teamNeedRemedy := nr; teamMoving := mv;
         teamTwoHundredsPlayed := th |} (tripCompletedBy p) (deck p)) as [Hle Hlt].
    destruct (dealToPlayers _ _ _ _ _ _ _) as [[v completedBy] deck'].
    simpl in Hle, Hlt. intros Hrest. apply IH in Hrest as [Hle' Hlt'].
    simpl in Hle', Hlt'. split; [lia|].
    intros (team' & Hin & Hplayers) Hsize.
    apply elem_of_cons in Hin as [->|Hin].
    + specialize (Hlt Hplayers Hsize). lia.
    + destruct (decide (deck_size deck' = O)) as [E0|Hpos]; [lia|].
      assert (deck_size (deck p') < deck_size deck')%nat by (apply Hlt'; eauto).
      lia.
Qed.

Lemma is_Some_insert `{Countable Key} {V} (d : gmap Key V) k v i :
  is_Some (d !! i) → is_Some (<[k := v]> d !! i).
Proof.
  intros Hi. destruct (decide (k = i)) as [->|Hne].
  - rewrite lookup_insert_eq. eauto.
  - by rewrite lookup_insert_ne.
Qed.

Lemma getitem_Some `{Countable Key} {V} (d : gmap Key V) k :
  is_Some (d !! k) → ∃ v, getitem d k = Ok v.
Proof. intros [v E]. exists v. unfold getitem. by rewrite E. Qed.

Lemma dealToTeams_Ok K ts p :
  (∀ team, team ∈ ts → has_team p (Team.number team)) →
  ∃ p', dealToTeams K ts p = Ok p' ∧ ∀ i, has_team p i → has_team p' i.
Proof.
  revert p. induction ts as [|team ts IH]; intros p Hts; simpl.
  - by exists p.
  - destruct (no_deck (deck p)); [by exists p|].
    destruct (Hts team) as (Hnm & Hnr & Hmv & Hth); [left|].
    destruct (getitem_Some _ _ Hnm) as [nm ->].
    destruct (getitem_Some _ _ Hnr) as [nr ->].
    destruct (getitem_Some _ _ Hmv) as [mv ->].
    destruct (getitem_Some _ _ Hth) as [th ->]. simpl.
    destruct (dealToPlayers _ _ _ _ _ _ _) as [[v completedBy] deck'].
    match goal with |- ∃ p', dealToTeams K ts ?q = _ ∧ _ => set (p1 := q) end.
    assert (∀ i, has_team p i → has_team p1 i) as Hkeep.
    { intros i (? & ? & ? & ?). repeat split; by apply is_Some_insert. }
    destruct (IH p1) as (p' & E & Hp').
    { intros team' ?. apply Hkeep, Hts. by right. }
    exists p'. split; [done|]. intros i Hi. by apply Hp', Hkeep.
Qed.

Lemma whileDeck_Ok K gs fuel p :
  (∃ team, team ∈ teams gs ∧ Team.playerNumbers team ≠ []) →
  (∀ team, team ∈ teams gs → has_team p (Team.number team)) →
  (deck_size (deck p) ≤ fuel)%nat →
  ∃ p', whileDeck K gs fuel p = Ok p' ∧ ∀ i, has_team p i → has_team p' i.
Proof.
  intros Hplayers. revert p.
  induction fuel as [|fuel IH]; intros p Hteams Hsize; cbn [whileDeck].
  - destruct (no_deck (deck p)) eqn:E; [by exists p|].
    assert (deck_size (deck p) = O) as E0 by lia.
    apply no_deck_size in E0. congruence.
  - destruct (no_deck (deck p)) eqn:E; [by exists p|].
    destruct (dealToTeams_Ok K (teams gs) p Hteams) as (p1 & E1 & Hkeep).
    rewrite E1. cbn [mbind result_bind].
    apply dealToTeams_deck in E1 as [_ Hlt].
    assert (deck_size (deck p) ≠ O) as Hpos.
    { intros E0. apply no_deck_size in E0. congruence. }
    specialize (Hlt Hplayers Hpos).
    match goal with |- ∃ p', whileDeck K gs fuel ?q = _ ∧ _ => set (p2 := q) end.
    destruct (IH p2) as (p' & E' & Hp').
    { intros team Hteam. apply (Hkeep _ (Hteams team Hteam)). }
    { simpl. lia. }
    exists p'. split; [done|]. intros i Hi. apply Hp'. by apply (Hkeep i).
Qed.

Lemma foldl_insert_keeps {V} (f : Team.t → V) ts (d : gmap Z V) i :
  is_Some (d !! i) →
  is_Some (foldl (λ d team, <[Team.number team := f team]> d) d ts !! i).
Proof.
  revert d. induction ts as [|t ts IH]; intros d Hd; simpl; [done|].
  by apply IH, is_Some_insert.
Qed.

Lemma byTeamNumber_lookup {V} gs (f : Team.t → V) team :
  team ∈ teams gs → is_Some (byTeamNumber gs f !! Team.number team).
Proof.
  unfold byTeamNumber. generalize (teams gs) (∅ : gmap Z V). intros ts.
  induction ts as [|t ts IH]; intros d Hin; [by apply elem_of_nil in Hin|].
  simpl. apply elem_of_cons in Hin as [->|Hin]; [|by apply IH].
  apply foldl_insert_keeps. rewrite lookup_insert_eq. eauto.
Qed.

Lemma playoutResult_Ok gs p :
  playable gs → (∀ team, team ∈ teams gs → has_team p (Team.number team)) →
  ∃ row, playoutResult gs p = Ok row ∧ length row = S (length (teams gs)).
Proof.
  intros [_ Hnum] Hkeys. unfold playoutResult.
  match goal with |- ∃ row, forM ?f ?l ≫= _ = _ ∧ _ =>
    destruct (forM_Ok f (λ _ _, True) l) as (rows & -> & Hrows) end.
  { intros i Hi%elem_of_seqZ.
    assert (0 ≤ i < len (teams gs)) as Hrange
      by (unfold teams, len in *; simpl length; lia).
    destruct (Hnum i Hrange) as ((team & Hteam & <-) & Hfind).
    destruct (Hkeys team Hteam) as (Hnm & Hnr & Hmv & _).
    assert (∃ t, (if Team.number team =? Team.number (GameState.us gs)
                  then Ok (GameState.us gs)
                  else GameState.teamNumberToTeam gs (Some (Team.number team)))
                 = Ok t) as [t ->].
    { destruct (Z.eqb_spec (Team.number team) (Team.number (GameState.us gs)));
        [eauto|]. destruct Hfind as [?|[t ->]]; [done|eauto]. }
    simpl.
    destruct (getitem_Some _ _ Hnm) as [nm Enm].
    destruct (getitem_Some _ _ Hnr) as [nr ->].
    destruct (getitem_Some _ _ Hmv) as [mv Emv]. simpl.
    destruct (truthy nr); simpl; [eauto|].
    rewrite Emv. simpl. destruct mv; simpl; eauto. }
  simpl. eexists. split; [done|]. simpl. f_equal.
  apply Forall2_length in Hrows. rewrite <- Hrows, length_seqZ.
  unfold teams, len. simpl length. lia.
Qed.

Lemma playout_Ok K shuffle ai gs k :
  playable gs →
  ∃ row, playout K shuffle ai gs k = Ok row ∧ length row = S (length (teams gs)).
Proof.
  intros Hgs. unfold playout.
  match goal with |- ∃ row, whileDeck K gs ?fuel ?p ≫= _ = _ ∧ _ =>
    destruct (whileDeck_Ok K gs fuel p) as (p' & -> & Hkeys) end.
  - apply Hgs.
  - intros team Hteam. repeat split; by apply byTeamNumber_lookup.
  - simpl. lia.
  - simpl. apply playoutResult_Ok; [done|].
    intros team Hteam. apply Hkeys. repeat split; by apply byTeamNumber_lookup.
Qed.

Lemma monteCarloMileageSimulation_Ok K shuffle ai gs :
  playable gs →
  ∃ rows, monteCarloMileageSimulation K shuffle ai gs = Ok rows
          ∧ length rows = 100%nat
          ∧ Forall (λ row, length row = S (length (teams gs))) rows.
Proof.
  intros Hgs. unfold monteCarloMileageSimulation.
  destruct (forM_Ok (playout K shuffle ai gs)
              (λ _ row, length row = S (length (teams gs))) (seq 0 100))
    as (rows & E & Hrows).
  { intros k _. by apply playout_Ok. }
  exists rows. split; [done|]. split.
  - apply Forall2_length in Hrows. by rewrite <- Hrows.
  - clear E. induction Hrows; constructor; done.
Qed.

(** ** Every value is computed on a well-formed snapshot *)

Lemma percentOfCardsRemaining_known ai cards :
  Forall (knows ai) cards → is_Ok (percentOfCardsRemaining ai cards).
Proof.
  intros H. unfold percentOfCardsRemaining.
  assert (∀ acc, ∃ n, foldM (λ cardCount card,
            n ← getitem (cardsUnseen ai) card; Ok (cardCount + n)) acc cards
          = Ok n) as Hloop.
  { induction H as [|card cards [n E] _ IH]; intros acc; simpl; [eauto|].
    unfold getitem. rewrite E. simpl. apply IH. }
  destruct (Hloop 0) as [n ->]. simpl. rewrite pydiv_Z_Ok by lia. by eexists.
Qed.

Lemma noRemedyDiscards_lookup K remedy :
  remedy ∈ REMEDIES K → is_Some (noRemedyDiscards K !! remedy).
Proof.
  unfold noRemedyDiscards. generalize (REMEDIES K) (∅ : gmap Z Z). intros rs.
  assert (∀ d : gmap Z Z, is_Some (d !! remedy) →
            is_Some (foldl (λ d r, <[r := 0]> d) d rs !! remedy)) as Hkeep.
  { induction rs as [|r rs IH]; intros d Hd; simpl; [done|].
    by apply IH, is_Some_insert. }
  clear Hkeep.
  induction rs as [|r rs IH]; intros d Hin; [by apply elem_of_nil in Hin|].
  simpl. apply elem_of_cons in Hin as [->|Hin]; [|by apply IH].
  generalize (<[r := 0]> d) (lookup_insert_eq d r 0). clear.
  induction rs as [|r' rs IH]; intros d Hd; simpl; [eauto|].
  apply IH. destruct (decide (r' = r)) as [->|Hne].
  - apply lookup_insert_eq.
  - by rewrite lookup_insert_ne.
Qed.

Section Total.

Context (K : Mille) (shuffle : nat → list Z → list Z).
Context (ai : MatthewgAI) (gs : GameState.t).
Context (WF : well_formed K ai gs).

Lemma remedyDiscards_Ok player remedy :
  remedy ∈ REMEDIES K → is_Ok (remedyDiscards K ai player remedy).
Proof.
  intros Hr. unfold remedyDiscards.
  destruct (interestingRemedyDiscardsByPlayer ai !! player) as [d|] eqn:E; simpl.
  - destruct (wf_discards _ _ _ WF player d remedy E Hr) as [n En].
    exists n. unfold getitem. by rewrite En.
  - destruct (noRemedyDiscards_lookup K remedy Hr) as [n En].
    exists n. unfold getitem. by rewrite En.
Qed.

Lemma chanceOpponentHasProtection_Ok team attack :
  knows ai (attackToSafety K attack) → knows ai (attackToRemedy K attack) →
  attackToRemedy K attack ∈ REMEDIES K →
  is_Ok (chanceOpponentHasProtection K ai team attack).
Proof.
  intros Hs Hr Hin. unfold chanceOpponentHasProtection.
  case_bool_decide; [by eexists|].
  destruct (percentOfCardsRemaining_known ai
              [attackToSafety K attack; attackToRemedy K attack]) as [odds ->];
    [by repeat constructor|]. simpl.
  generalize odds. induction (Team.playerNumbers team) as [|player players IH];
    intros o; simpl; [by eexists|].
  destruct (remedyDiscards_Ok player _ Hin) as [n ->]. simpl. apply IH.
Qed.

Lemma playable_playerCount : playerCount gs ≠ 0.
Proof.
  destruct (wf_playable _ _ _ WF) as [(team & Hteam & Hplayers) _].
  unfold playerCount. revert Hteam. generalize (teams gs). intros ts Hteam.
  assert (∀ x l, sumZ (x :: l) = x + sumZ l) as Hcons by done.
  assert (∀ l : list Team.t,
            0 ≤ sumZ ((λ team, len (Team.playerNumbers team)) <$> l)) as Hpos.
  { induction l as [|t l IH]; [done|].
    rewrite fmap_cons, Hcons. unfold len at 1. lia. }
  induction ts as [|t ts IH]; [by apply elem_of_nil in Hteam|].
  rewrite fmap_cons, Hcons. specialize (Hpos ts).
  apply elem_of_cons in Hteam as [<-|Hteam].
  - unfold len at 1. destruct (Team.playerNumbers team); [done|]. simpl length. lia.
  - specialize (IH Hteam). unfold len at 1. lia.
Qed.

Lemma deckExhaustionTurnsLeft_total : is_Ok (deckExhaustionTurnsLeft gs).
Proof.
  rewrite deckExhaustionTurnsLeft_Ok by apply playable_playerCount. by eexists.
Qed.

Lemma useMonteCarloSimulation_total : is_Ok (useMonteCarloSimulation gs).
Proof.
  unfold useMonteCarloSimulation. case_match; [by eexists|].
  destruct deckExhaustionTurnsLeft_total as [turns ->]. by eexists.
Qed.

Lemma expectedTurnsLeft_Ok : is_Ok (expectedTurnsLeft K shuffle ai gs).
Proof.
  unfold expectedTurnsLeft.
  destruct useMonteCarloSimulation_total as [[] ->]; simpl;
    [apply deckExhaustionTurnsLeft_total|].
  destruct (monteCarloMileageSimulation_Ok K shuffle ai gs (wf_playable _ _ _ WF))
    as (rows & -> & Hlen & Hrows). simpl.
  destruct (forM_Ok (λ gameOutcome : list Z, list_getitem gameOutcome 0)
              (λ _ _, True) rows) as (turns & -> & Hturns).
  { intros row Hrow. rewrite Forall_forall in Hrows.
    specialize (Hrows row Hrow). destruct row as [|t row]; [done|]. by exists t. }
  simpl. apply Forall2_length in Hturns.
  rewrite pydiv_Z_Ok by (unfold len; lia). by eexists.
Qed.

Lemma monteCarloEstimate_Ok team :
  team ∈ teams gs → is_Ok (monteCarloEstimate K shuffle ai gs team).
Proof.
  intros Hteam. unfold monteCarloEstimate.
  destruct (monteCarloMileageSimulation_Ok K shuffle ai gs (wf_playable _ _ _ WF))
    as (rows & -> & Hlen & Hrows). simpl.
  pose proof (wf_numbers _ _ _ WF team Hteam) as Hnum.
  destruct (forM_Ok (λ row : list Z, list_getitem row (Team.number team + 1))
              (λ _ _, True) rows) as (results & -> & Hresults).
  { intros row Hrow. rewrite Forall_forall in Hrows.
    specialize (Hrows row Hrow). unfold list_getitem.
    destruct (0 <=? Team.number team + 1) eqn:E1; [|lia].
    destruct (Team.number team + 1 <? 0) eqn:E2; [lia|].
    destruct (row !! Z.to_nat (Team.number team + 1)) as [r|] eqn:E3; [by exists r|].
    apply lookup_ge_None in E3. unfold len in Hnum. lia. }
  simpl. apply Forall2_length in Hresults.
  rewrite pydiv_Z_Ok by (unfold len; lia). by eexists.
Qed.

Lemma knows_needRemedy team remedy :
  team ∈ teams gs → needsOtherRemedy K team = Some remedy →
  Forall (knows ai) [remedy; remedyToSafety K remedy].
Proof.
  intros Hteam E%needsOtherRemedy_Some.
  destruct (wf_needRemedy _ _ _ WF team remedy Hteam E). by repeat constructor.
Qed.

Lemma cardCountingEstimate_Ok team :
  useMonteCarloSimulation gs = Ok false → team ∈ teams gs →
  is_Ok (cardCountingEstimate K ai gs team).
Proof.
  intros Hmc Hteam. unfold cardCountingEstimate.
  destruct (analytical_path gs Hmc) as (Hmileage & turns & -> & _). simpl.
  specialize (Hmileage team Hteam).
  assert (is_Ok (goCoeff K ai team (turns * Z2Q (len (Team.playerNumbers team)))))
    as [go ->].
  { unfold goCoeff. case_match; [by eexists|].
    destruct (percentOfCardsRemaining_known ai [REMEDY_GO K]) as [pct ->];
      [repeat constructor; apply WF|]. by eexists. }
  simpl.
  assert (is_Ok (remedyCoeff K ai team (turns * Z2Q (len (Team.playerNumbers team)))))
    as [remedy ->].
  { unfold remedyCoeff. destruct (needsOtherRemedy K team) as [r|] eqn:E; [|by eexists].
    destruct (percentOfCardsRemaining_known ai [r; remedyToSafety K r]) as [pct ->];
      [by apply (knows_needRemedy team)|]. by eexists. }
  simpl. case_match; [by eexists|].
  assert (Forall (knows ai) (validMileageCards K (1000 - Team.mileage team))) as Hcards.
  { unfold validMileageCards. rewrite sort_reverse_Permutation.
    pose proof (wf_mileage _ _ _ WF) as Hmil. rewrite Forall_forall in Hmil |- *.
    intros card Hcard. apply Hmil. revert Hcard. apply list_subseteq_filter. }
  destruct (percentOfCardsRemaining_known ai _ Hcards) as [pct ->]. simpl.
  assert (is_Ok (unseenTotalMileage K ai (validMileageCards K (1000 - Team.mileage team))))
    as [total ->].
  { unfold unseenTotalMileage.
    destruct (forM_Ok (λ card, n ← getitem (cardsUnseen ai) card;
                               Ok (cardToMileage K card * n)) (λ _ _, True)
                (validMileageCards K (1000 - Team.mileage team))) as (ps & -> & _);
      [|by eexists].
    intros card Hcard. rewrite Forall_forall in Hcards.
    destruct (Hcards card Hcard) as [n E]. unfold getitem. rewrite E. by eexists. }
  simpl. case_match; [by eexists|].
  rewrite pydiv_Z_Ok by lia. by eexists.
Qed.

Lemma chanceTeamWillCompleteTrip_Ok team :
  team ∈ teams gs → is_Ok (chanceTeamWillCompleteTrip K shuffle ai gs team).
Proof.
  intros Hteam. unfold chanceTeamWillCompleteTrip.
  destruct useMonteCarloSimulation_total as [[] E]; rewrite E; simpl.
  - by apply monteCarloEstimate_Ok.
  - by apply cardCountingEstimate_Ok.
Qed.

Lemma chanceTeamWillWin_Ok team : is_Ok (chanceTeamWillWin K gs team).
Proof.
  unfold chanceTeamWillWin.
  rewrite (pydiv_Z_Ok 1 (len (GameState.opponents gs) + 1)) by (unfold len; lia).
  simpl. rewrite (pydiv_Z_Ok _ (pointsToWin K)) by apply WF. simpl.
  destruct (Z.eqb_spec (maxZ (Team.totalScore (GameState.us gs))
                             (Team.totalScore <$> GameState.opponents gs)) 0);
    [by eexists|].
  rewrite pydiv_Z_Ok by done. by eexists.
Qed.

Lemma count_eq_pos {A} `{EqDecision A} (x : A) l : x ∈ l → 1 ≤ count_eq x l.
Proof.
  intros (l1 & l2 & ->)%list_elem_of_split.
  rewrite count_eq_app, count_eq_cons. unfold count_eq, len. lia.
Qed.

Lemma list_index_Ok {A} `{EqDecision A} (x : A) l : x ∈ l → is_Ok (list_index x l).
Proof.
  induction 1 as [x l|x y l _ [i IH]]; simpl.
  - rewrite decide_True by done. by eexists.
  - case_decide; [by eexists|]. rewrite IH. by eexists.
Qed.

Lemma cardValue_Ok move idx cards :
  known_move K ai gs move → Some (Move.card move) ∈ cards →
  is_Ok (cardValue K shuffle ai gs (Move.card move) idx cards).
Proof.
  intros Hknown Hin. unfold cardValue.
  rewrite dupeCoefficient_Ok by (by apply count_eq_pos). simpl.
  destruct (list_index_Ok _ _ Hin) as [i Ei].
  unfold known_move in Hknown.
  destruct (cardToType K (Move.card move)) eqn:Etype.
  - (* mileage *)
    case_match; [by eexists|]. case_match; [by eexists|].
    rewrite Ei. simpl.
    destruct (mileageCardValue_Ok K gs (Move.card move) (wf_racing _ _ _ WF))
      as (points & _ & ->).
    destruct (cardToMileage K (Move.card move) =? 25); simpl;
      [destruct (i =? idx); simpl|]; by eexists.
  - (* remedy *)
    rewrite valueOfPoints_Ok. simpl. rewrite Ei. simpl.
    destruct ((i =? idx) && _); [by eexists|].
    match goal with |- context [percentOfCardsRemaining ai ?l] =>
      destruct (percentOfCardsRemaining_known ai l) as [pct ->] end.
    { match goal with |- Forall _ (filter _ ?l) => assert (Forall (knows ai) l) as Hl end.
      { case_match; [apply WF|by repeat constructor]. }
      rewrite Forall_forall in Hl |- *. intros c Hc. apply Hl.
      revert Hc. apply list_subseteq_filter. }
    simpl. destruct expectedTurnsLeft_Ok as [turns ->]. simpl.
    rewrite pydiv_Z_Ok by (unfold len; lia). by eexists.
  - (* safety *) by eexists.
  - (* attack *)
    destruct Hknown as (Hs & Hr & Hrem & _).
    match goal with |- context [forM ?f ?l] =>
      destruct (forM_Ok f (λ _ _, True) l) as (values & -> & Hvalues) end.
    { intros target _.
      destruct (chanceOpponentHasProtection_Ok target _ Hs Hr Hrem) as [p ->]. simpl.
      destruct (percentOfCardsRemaining_known ai
                  [attackToSafety K (Move.card move); attackToRemedy K (Move.card move)])
        as [q ->]; [by repeat constructor|]. simpl.
      rewrite valueOfPoints_Ok. by eexists. }
    simpl. apply Forall2_length in Hvalues.
    rewrite pydiv_Z_Ok; [by eexists|].
    pose proof (wf_opponents _ _ _ WF) as Hopp. unfold len.
    destruct (GameState.opponents gs); [done|]. simpl in Hvalues. lia.
  - done.
Qed.

Lemma moveValue_Ok move idx discardCards :
  known_move K ai gs move →
  (Move.type move = DISCARD → Some (Move.card move) ∈ discardCards) →
  is_Ok (moveValue K shuffle ai gs move idx discardCards).
Proof.
  intros Hknown Hdiscard. unfold moveValue. case_bool_decide as Htype.
  - destruct (cardValue_Ok move idx discardCards Hknown (Hdiscard Htype)) as [v ->].
    by eexists.
  - assert (Move.type move = PLAY) as Hplay by (by destruct (Move.type move)).
    pose proof Hknown as Hknown'. unfold known_move in Hknown.
    destruct (cardToType K (Move.card move)) eqn:Ecard.
    + destruct (mileageCardValue_Ok K gs (Move.card move) (wf_racing _ _ _ WF))
        as (points & _ & ->). simpl. repeat case_match; by eexists.
    + case_match; by eexists.
    + by eexists.
    + destruct Hknown as (Hs & Hr & Hrem & Htarget).
      destruct (Htarget Hplay) as (target & -> & Hteam). simpl.
      case_match; [by eexists|].
      destruct (chanceOpponentHasProtection_Ok target _ Hs Hr Hrem) as [p ->]. simpl.
      destruct (chanceTeamWillWin_Ok target) as [w ->]. simpl.
      destruct (chanceTeamWillCompleteTrip_Ok target Hteam) as [c ->]. by eexists.
    + done.
Qed.

End Total.

(** C1: on a well-formed snapshot whose list of valid moves is not empty
    and holds only moves of the known kinds (a discard, or the play of a
    mileage, remedy, safety or attack card), [makeMove] returns a move, and
    that move is one of the valid moves of the snapshot. *)
Theorem makeMove_in_validMoves (K : Mille) (shuffle : nat → list Z → list Z)
    (ai : MatthewgAI) (gs : GameState.t) :
  well_formed K ai gs →
  GameState.validMoves gs ≠ [] →
  Forall (known_move K ai gs) (GameState.validMoves gs) →
  ∃ move, makeMove K shuffle ai gs = Ok move ∧ move ∈ GameState.validMoves gs.
Proof.
  intros WF Hne Hknown.
  apply makeMove_returns_valid_move; [done|].
  intros i move Hi. apply moveValue_Ok; [done| |].
  - rewrite Forall_forall in Hknown. apply Hknown. by apply list_elem_of_lookup_2 in Hi.
  - intros Htype. apply list_elem_of_lookup. exists i.
    rewrite list_lookup_fmap, Hi. simpl. unfold discardCard.
    by rewrite bool_decide_eq_true_2.
Qed.

(** A first turn: a 25 and a safety to play, a stop to throw at the other
    team, and every card of the hand to discard. *)
Lemma makeMove_witness :
  let gs := Sample.game (Sample.team 0 [0] 0) (Sample.team 1 [1] 0)
              [Sample.play 1; Sample.discard 1; Sample.discard 4;
               Sample.discard 11; Sample.discard 6; Sample.attack 15 1;
               Sample.play 16; Sample.discard 16] 80 in
  let ai := init Sample.mille in
  (well_formed Sample.mille ai gs ∧ GameState.validMoves gs ≠ []
   ∧ Forall (known_move Sample.mille ai gs) (GameState.validMoves gs))
  ∧ ∃ move,
      makeMove Sample.mille Sample.noShuffle ai gs = Ok move
      ∧ move ∈ GameState.validMoves gs.
Proof.
  intros gs ai.
  assert (∀ team, team ∈ teams gs →
            team = Sample.team 0 [0] 0 ∨ team = Sample.team 1 [1] 0) as Hteams.
  { intros team [->|[->|[]%elem_of_nil]%elem_of_cons]%elem_of_cons; auto. }
  assert (well_formed Sample.mille ai gs) as WF.
  { split.
    - split.
      + exists (Sample.team 0 [0] 0). split; [left|done].
      + intros i Hi. change (len (teams gs)) with 2 in Hi.
        assert (i = 0 ∨ i = 1) as [->| ->] by lia.
        * split; [exists (Sample.team 0 [0] 0); split; [left|done]|by left].
        * split; [exists (Sample.team 1 [1] 0); split; [right; left|done]|].
          right. by eexists.
    - intros team [->| ->]%Hteams; by vm_compute.
    - done.
    - done.
    - done.
    - by eexists.
    - repeat constructor; by eexists.
    - repeat constructor; by eexists.
    - intros team remedy [->| ->]%Hteams; done.
    - intros player discards remedy E. unfold ai in E. simpl in E.
      by rewrite lookup_empty in E. }
  assert (GameState.validMoves gs ≠ []) as Hne by done.
  assert (Forall (known_move Sample.mille ai gs) (GameState.validMoves gs)) as Hknown.
  { repeat (apply Forall_cons; split); [..|apply Forall_nil];
      unfold known_move; simpl; try done.
    - split; [by eexists|]. split; [by eexists|].
      split; [repeat constructor|done].
    - by eexists.
    - split; [by eexists|]. split; [by eexists|].
      split; [repeat constructor|].
      intros _. eexists. split; [reflexivity|]. right; left. }
  split; [done|].
  exact (makeMove_in_validMoves Sample.mille Sample.noShuffle ai gs WF Hne Hknown).
Defined.

(** On that turn the engine plays the safety, the move of greatest value. *)
Example makeMove_first_turn :
  makeMove Sample.mille Sample.noShuffle (init Sample.mille)
    (Sample.game (Sample.team 0 [0] 0) (Sample.team 1 [1] 0)
       [Sample.play 1; Sample.discard 1; Sample.discard 4;
        Sample.discard 11; Sample.discard 6; Sample.attack 15 1;
        Sample.play 16; Sample.discard 16] 80)
  = Ok (Sample.play 16).
Proof. by vm_compute. Qed.
